(** * WebSocketTransport: a shallow embedding of lib/transports/WebSocketTransport.js

    The transport is a JavaScript class whose methods and socket callbacks
    mutate one object ([this]), a heap of socket objects and the variables
    of the closures that [_setWebSocket] creates.  The embedding threads
    that store through a state-and-exception monad [JS] and keeps every
    observable call (event emission, logger call, socket call) in one
    ordered trace.

    What the file does not contain is kept apart from it:
    - the socket library and [Message.parse] are abstract, behind the class
      [Collaborators]; [W3CWebSocket_refuses] says which arguments the
      socket constructor refuses, and [constructor_checked] is the
      constructor of the transport that throws on them and on a retry
      policy that [retry.operation] refuses; [constructor] is the same
      function on the arguments that are accepted;
    - the npm [retry] operation is modelled by its list of remaining delays
      and the timers it sets;
    - listeners are the callers' code: [emit] records the event, which is
      all there is to an emission whose listeners leave the transport
      alone; [emit_L] runs, inside the emission, listeners that send, close
      or throw, and [close_L], [handler_L] and [run_L] are the method, the
      callbacks and the runs with such listeners. *)

From Stdlib Require Import ZArith Ascii.
From stdpp Require Import base option list strings pretty sorting.

Set Warnings "-register-all".

Local Open Scope Z_scope.
Local Open Scope string_scope.
Local Open Scope list_scope.

(** ** JavaScript values that travel through the transport *)

(** The tree-shaped values a caller hands to [send]: JSON data plus BigInt,
    the primitive [JSON.stringify] refuses.  [JsNumber] covers the
    integer-valued numbers (safe-integer range). *)
Inductive JsValue : Type :=
  | JsNull
  | JsBool (b : bool)
  | JsNumber (n : Z)
  | JsBigInt (n : Z)
  | JsString (s : string)
  | JsArray (items : list JsValue)
  | JsObject (props : list (string * JsValue)).

Inductive JsError : Type :=
  | TypeError (msg : string)
  | Error (msg : string).

(** Outcome of evaluating a statement list: normal completion or a throw. *)
Inductive Completion (A : Type) : Type :=
  | Normal (a : A)
  | Throw (e : JsError).
Arguments Normal {A} a.
Arguments Throw {A} e.

(** A settled promise, as returned by [send]. *)
Inductive Promise : Type :=
  | Resolved
  | Rejected (reason : JsError).

(** *** JSON.stringify on [JsValue] *)

Definition dquote : string := String (ascii_of_nat 34) EmptyString.
Definition backslash : string := String (ascii_of_nat 92) EmptyString.

Definition hex_digit (n : nat) : string :=
  match n with
  | 0%nat => "0" | 1%nat => "1" | 2%nat => "2" | 3%nat => "3"
  | 4%nat => "4" | 5%nat => "5" | 6%nat => "6" | 7%nat => "7"
  | 8%nat => "8" | 9%nat => "9" | 10%nat => "a" | 11%nat => "b"
  | 12%nat => "c" | 13%nat => "d" | 14%nat => "e" | _ => "f"
  end.

(** QuoteJSONString, one code unit at a time. *)
Definition quote_char (c : ascii) : string :=
  let n := nat_of_ascii c in
  if decide (n = 34%nat) then backslash +:+ dquote
  else if decide (n = 92%nat) then backslash +:+ backslash
  else if decide (n = 8%nat) then backslash +:+ "b"
  else if decide (n = 9%nat) then backslash +:+ "t"
  else if decide (n = 10%nat) then backslash +:+ "n"
  else if decide (n = 12%nat) then backslash +:+ "f"
  else if decide (n = 13%nat) then backslash +:+ "r"
  else if decide (n < 32)%nat
       then backslash +:+ "u00" +:+ hex_digit (n / 16) +:+ hex_digit (n mod 16)
  else String c EmptyString.

Fixpoint quote_chars (s : string) : string :=
  match s with
  | EmptyString => EmptyString
  | String c rest => quote_char c +:+ quote_chars rest
  end.

Definition quote (s : string) : string := dquote +:+ quote_chars s +:+ dquote.

Fixpoint join (sep : string) (parts : list string) : string :=
  match parts with
  | [] => ""
  | [p] => p
  | p :: rest => p +:+ sep +:+ join sep rest
  end.

(** [JSON.stringify(v)]: the text, or the TypeError thrown at a BigInt. *)
Fixpoint JSON_stringify (v : JsValue) : JsError + string :=
  match v with
  | JsNull => inr "null"
  | JsBool true => inr "true"
  | JsBool false => inr "false"
  | JsNumber n => inr (pretty n)
  | JsBigInt _ => inl (TypeError "Do not know how to serialize a BigInt")
  | JsString s => inr (quote s)
  | JsArray items =>
      let fix elements (l : list JsValue) : JsError + list string :=
        match l with
        | [] => inr []
        | x :: rest =>
            match JSON_stringify x with
            | inl e => inl e
            | inr sx =>
                match elements rest with
                | inl e => inl e
                | inr srest => inr (sx :: srest)
                end
            end
        end in
      match elements items with
      | inl e => inl e
      | inr parts => inr ("[" +:+ join "," parts +:+ "]")
      end
  | JsObject props =>
      let fix members (l : list (string * JsValue)) : JsError + list string :=
        match l with
        | [] => inr []
        | (key, x) :: rest =>
            match JSON_stringify x with
            | inl e => inl e
            | inr sx =>
                match members rest with
                | inl e => inl e
                | inr srest => inr ((quote key +:+ ":" +:+ sx) :: srest)
                end
            end
        end in
      match members props with
      | inl e => inl e
      | inr parts => inr ("{" +:+ join "," parts +:+ "}")
      end
  end.

(** ** Configuration *)

(** The backoff policy object handed to the retry library; an absent field
    takes the library's default. *)
Record RetryOptions : Type := {
  retries : option nat;
  factor : option Z;
  minTimeout : option Z;
  maxTimeout : option Z
}.

Definition DEFAULT_RETRY_OPTIONS : RetryOptions := {|
  retries := Some 10%nat;
  factor := Some 2;
  minTimeout := Some (1 * 1000);
  maxTimeout := Some (8 * 1000)
|}.

Record Options : Type := {
  origin : option JsValue;
  headers : option JsValue;
  requestOptions : option JsValue;
  clientConfig : option JsValue;
  retry : option RetryOptions
}.

(** The empty object of [options || {}]. *)
Definition no_options : Options := {|
  origin := None; headers := None; requestOptions := None;
  clientConfig := None; retry := None
|}.

(** ** The retry library (npm [retry], an external dependency)

    [retry.operation(opts)] precomputes one backoff delay per allowed retry;
    [retry] consumes the next delay and schedules the attempt function,
    [stop] empties the remaining delays.  Policies are integer-valued,
    without the [randomize] and [forever] switches, and are policies the
    library accepts (it refuses [minTimeout > maxTimeout] by throwing, which
    aborts the constructor of the transport). *)
Record RetryOperation : Type := {
  _timeouts : list Z;
  _attempts : nat
}.

Definition retry_createTimeout (opts : RetryOptions) (attempt : nat) : Z :=
  let timeout := default 1000 (minTimeout opts)
                 * default 2 (factor opts) ^ Z.of_nat attempt in
  match maxTimeout opts with
  | Some cap => Z.min timeout cap
  | None => timeout
  end.

Definition retry_timeouts (opts : RetryOptions) : list Z :=
  merge_sort Z.le
    (retry_createTimeout opts <$> seq 0 (default 10%nat (retries opts))).

Definition retry_operation (opts : RetryOptions) : RetryOperation :=
  {| _timeouts := retry_timeouts opts; _attempts := 1 |}.

(** ** Events *)

(** The public event surface of the transport (its [emit] calls). *)
Inductive PublicEvent : Type :=
  | EvOpen
  | EvMessage (message : JsValue)
  | EvDisconnected
  | EvClose.

(** The event object a socket passes to [onclose]. *)
Record CloseEvent : Type := {
  wasClean : bool;
  code : Z;
  reason : string
}.

(** What the network makes a socket report. *)
Inductive SocketEvent : Type :=
  | SockOpen
  | SockClose (event : CloseEvent)
  | SockError
  | SockMessage (data : string).

Inductive LogLevel : Type := LDebug | LWarn | LError.

(** The logger calls of the file, one constructor per call site, with the
    arguments the format string prints. *)
Inductive LogMessage : Type :=
  | log_constructor (url : string) (options : option Options)
  | log_send_error (error : JsError)
  | log_close
  | log_close_error (error : JsError)
  | log_attempt (currentAttempt : nat)
  | log_socket_close (event : CloseEvent)
  | log_socket_error
  | log_no_listeners.

Inductive SocketCall : Type :=
  | CallNew
  | CallSend (data : string)
  | CallClose.

(** One observable call made by the transport, in program order. *)
Inductive Effect : Type :=
  | Emitted (e : PublicEvent)
  | Logged (lvl : LogLevel) (msg : LogMessage)
  | Called (socket : nat) (c : SocketCall).

(** ** Collaborators

    The socket library and the message codec are not part of the file.
    A socket is an opaque native state; [send] and [close] either throw or
    step it, and a network event steps it before its callback runs.  The
    socket constructor throws on arguments it refuses
    ([W3CWebSocket_refuses]) and otherwise yields the native state
    [W3CWebSocket]. *)
Class Collaborators : Type := {
  Native : Type;
  W3CWebSocket :
    string → string → option JsValue → option JsValue →
    option JsValue → option JsValue → Native;
  W3CWebSocket_refuses :
    string → string → option JsValue → option JsValue →
    option JsValue → option JsValue → option JsError;
  native_send : Native → string → JsError + Native;
  native_close : Native → JsError + Native;
  native_event : SocketEvent → Native → Native;
  Message_parse : string → option JsValue
}.

Section Model.
Context {C : Collaborators}.

(** ** The store *)

(** A socket object: its native part and the four assignable callbacks.
    A callback is either [null] ([None]) or the arrow function created in
    the closure scope with the given index. *)
Record WebSocket : Type := {
  native : Native;
  onopen : option nat;
  onclose : option nat;
  onerror : option nat;
  onmessage : option nat
}.

(** The variables of one [_setWebSocket] activation, shared by the attempt
    function and by the callbacks of every socket it creates. *)
Record Scope : Type := {
  options : Options;
  operation : RetryOperation;
  wasConnected : bool
}.

(** The fields of the transport object. *)
Record Transport : Type := {
  _url : string;
  _options : Options;
  _ws : option nat;
  _closed : bool
}.

Record World : Type := {
  this : Transport;
  sockets : list WebSocket;
  scopes : list Scope;
  timers : list (nat * Z);
  message_listeners : nat;
  trace : list Effect
}.

Definition with_this (f : Transport → Transport) (w : World) : World :=
  {| this := f (this w); sockets := sockets w; scopes := scopes w;
     timers := timers w; message_listeners := message_listeners w;
     trace := trace w |}.

Definition with_sockets (f : list WebSocket → list WebSocket) (w : World) : World :=
  {| this := this w; sockets := f (sockets w); scopes := scopes w;
     timers := timers w; message_listeners := message_listeners w;
     trace := trace w |}.

Definition with_scopes (f : list Scope → list Scope) (w : World) : World :=
  {| this := this w; sockets := sockets w; scopes := f (scopes w);
     timers := timers w; message_listeners := message_listeners w;
     trace := trace w |}.

Definition with_timers (f : list (nat * Z) → list (nat * Z)) (w : World) : World :=
  {| this := this w; sockets := sockets w; scopes := scopes w;
     timers := f (timers w); message_listeners := message_listeners w;
     trace := trace w |}.

Definition with_listeners (f : nat → nat) (w : World) : World :=
  {| this := this w; sockets := sockets w; scopes := scopes w;
     timers := timers w; message_listeners := f (message_listeners w);
     trace := trace w |}.

Definition record (e : Effect) (w : World) : World :=
  {| this := this w; sockets := sockets w; scopes := scopes w;
     timers := timers w; message_listeners := message_listeners w;
     trace := trace w ++ [e] |}.

(** ** The monad of JavaScript statements: state plus exceptions *)

Definition JS (A : Type) : Type := World → Completion A * World.

#[export] Instance JS_ret : MRet JS := λ A a w, (Normal a, w).

#[export] Instance JS_bind : MBind JS := λ A B f m w,
  match m w with
  | (Normal a, w') => f a w'
  | (Throw e, w') => (Throw e, w')
  end.

Definition throw {A : Type} (e : JsError) : JS A := λ w, (Throw e, w).

Definition gets {A : Type} (f : World → A) : JS A := λ w, (Normal (f w), w).

Definition modify (f : World → World) : JS unit := λ w, (Normal tt, f w).

(** [try { body } catch (error) { handler }] *)
Definition try_catch {A : Type} (body : JS A) (handler : JsError → JS A) : JS A :=
  λ w, match body w with
       | (Normal a, w') => (Normal a, w')
       | (Throw e, w') => handler e w'
       end.

(** The world a statement leaves behind, whatever its completion. *)
Definition exec {A : Type} (m : JS A) (w : World) : World := snd (m w).

(** ** Primitive statements *)

(** [this.emit(e)] when no listener of [e] touches the transport: the
    emission is recorded.  [emit_L] below is the emission together with
    listeners that do. *)
Definition emit (e : PublicEvent) : JS unit := modify (record (Emitted e)).

Definition logger (lvl : LogLevel) (msg : LogMessage) : JS unit :=
  modify (record (Logged lvl msg)).

Definition closed (w : World) : bool := _closed (this w).

Definition with_closed (b : bool) (t : Transport) : Transport :=
  {| _url := _url t; _options := _options t; _ws := _ws t; _closed := b |}.

Definition with_ws (r : option nat) (t : Transport) : Transport :=
  {| _url := _url t; _options := _options t; _ws := r; _closed := _closed t |}.

Definition set_closed (b : bool) : JS unit :=
  modify (with_this (with_closed b)).

Definition set_ws (r : option nat) : JS unit :=
  modify (with_this (with_ws r)).

(** Reading [this._ws] in order to use a member of it: a TypeError on null. *)
Definition deref_ws : JS nat := λ w,
  match _ws (this w) with
  | Some i => (Normal i, w)
  | None => (Throw (TypeError "Cannot read properties of null"), w)
  end.

Definition assign_onopen (i : nat) (h : option nat) : JS unit :=
  modify (with_sockets (alter (λ s,
    {| native := native s; onopen := h; onclose := onclose s;
       onerror := onerror s; onmessage := onmessage s |}) i)).

Definition assign_onclose (i : nat) (h : option nat) : JS unit :=
  modify (with_sockets (alter (λ s,
    {| native := native s; onopen := onopen s; onclose := h;
       onerror := onerror s; onmessage := onmessage s |}) i)).

Definition assign_onerror (i : nat) (h : option nat) : JS unit :=
  modify (with_sockets (alter (λ s,
    {| native := native s; onopen := onopen s; onclose := onclose s;
       onerror := h; onmessage := onmessage s |}) i)).

Definition assign_onmessage (i : nat) (h : option nat) : JS unit :=
  modify (with_sockets (alter (λ s,
    {| native := native s; onopen := onopen s; onclose := onclose s;
       onerror := onerror s; onmessage := h |}) i)).

Definition set_native (n : Native) (s : WebSocket) : WebSocket :=
  {| native := n; onopen := onopen s; onclose := onclose s;
     onerror := onerror s; onmessage := onmessage s |}.

(** [new W3CWebSocket(...)]: a fresh socket object with no callbacks. *)
Definition new_W3CWebSocket (url protocol : string)
    (origin headers requestOptions clientConfig : option JsValue) : JS nat := λ w,
  let i := length (sockets w) in
  let s := {| native := W3CWebSocket url protocol origin headers
                                     requestOptions clientConfig;
              onopen := None; onclose := None;
              onerror := None; onmessage := None |} in
  (Normal i, record (Called i CallNew) (with_sockets (λ l, l ++ [s]) w)).

(** [ws.send(data)] on socket [i].  References are indices into the heap;
    one that points outside it does not arise (see [ws_ok]). *)
Definition ws_send (i : nat) (data : string) : JS unit := λ w,
  match sockets w !! i with
  | None => (Throw (TypeError "not a socket"), w)
  | Some s =>
      match native_send (native s) data with
      | inl e => (Throw e, record (Called i (CallSend data)) w)
      | inr n =>
          (Normal tt,
           record (Called i (CallSend data))
                  (with_sockets (λ l, <[i := set_native n s]> l) w))
      end
  end.

(** [ws.close()] on socket [i]. *)
Definition ws_close (i : nat) : JS unit := λ w,
  match sockets w !! i with
  | None => (Throw (TypeError "not a socket"), w)
  | Some s =>
      match native_close (native s) with
      | inl e => (Throw e, record (Called i CallClose) w)
      | inr n =>
          (Normal tt,
           record (Called i CallClose)
                  (with_sockets (λ l, <[i := set_native n s]> l) w))
      end
  end.

(** The result of [JSON.stringify] as a statement. *)
Definition stringify (v : JsValue) : JS string :=
  match JSON_stringify v with
  | inl e => throw e
  | inr data => mret data
  end.

(** *** Closure scopes and the retry operation they hold *)

Definition new_scope (sc : Scope) : JS nat := λ w,
  (Normal (length (scopes w)), with_scopes (λ l, l ++ [sc]) w).

Definition scope_options (k : nat) (w : World) : Options :=
  from_option options no_options (scopes w !! k).

Definition scope_wasConnected (k : nat) (w : World) : bool :=
  from_option wasConnected false (scopes w !! k).

Definition scope_timeouts (k : nat) (w : World) : list Z :=
  from_option (λ sc, _timeouts (operation sc)) [] (scopes w !! k).

Definition scope_attempts (k : nat) (w : World) : nat :=
  from_option (λ sc, _attempts (operation sc)) 1%nat (scopes w !! k).

Definition set_wasConnected (k : nat) (b : bool) : JS unit :=
  modify (with_scopes (alter (λ sc,
    {| options := options sc; operation := operation sc; wasConnected := b |}) k)).

Definition set_operation (k : nat) (f : RetryOperation → RetryOperation) : JS unit :=
  modify (with_scopes (alter (λ sc,
    {| options := options sc; operation := f (operation sc);
       wasConnected := wasConnected sc |}) k)).

(** [operation.stop()]: no delay is left, so every later [retry] refuses. *)
Definition operation_stop (k : nat) : JS unit :=
  set_operation k (λ op, {| _timeouts := []; _attempts := _attempts op |}).

(** [setTimeout(attempt function of scope k, delay)] *)
Definition setTimeout (k : nat) (delay : Z) : JS unit :=
  modify (with_timers (λ q, q ++ [(k, delay)])).

(** [operation.retry(err)]: [false] without an error or without a delay
    left; otherwise the next delay is consumed and the attempt function is
    scheduled. *)
Definition operation_retry (k : nat) (err : bool) : JS bool :=
  if negb err then mret false
  else
    ts ← gets (scope_timeouts k);
    match ts with
    | [] => mret false
    | timeout :: rest =>
        set_operation k (λ op, {| _timeouts := rest; _attempts := _attempts op |});;
        setTimeout k timeout;;
        mret true
    end.

(** ** The class WebSocketTransport *)

(** The arrow function passed to [operation.attempt], in scope [k]. *)
Definition attempt_fn (k : nat) (currentAttempt : nat) : JS unit :=
  c ← gets closed;
  if c : bool then operation_stop k
  else
    logger LDebug (log_attempt currentAttempt);;
    url ← gets (λ w, _url (this w));
    options ← gets (scope_options k);
    ws ← new_W3CWebSocket url "" (origin options) (headers options)
                          (requestOptions options) (clientConfig options);
    set_ws (Some ws);;
    (i ← deref_ws; assign_onopen i (Some k));;
    (i ← deref_ws; assign_onclose i (Some k));;
    (i ← deref_ws; assign_onerror i (Some k));;
    (i ← deref_ws; assign_onmessage i (Some k)).

(** [operation.attempt(fn)]: the first attempt runs at once. *)
Definition operation_attempt (k : nat) : JS unit :=
  n ← gets (scope_attempts k);
  attempt_fn k n.

Definition _setWebSocket : JS unit :=
  options ← gets (λ w, _options (this w));
  k ← new_scope {| options := options;
                   operation := retry_operation
                     (default DEFAULT_RETRY_OPTIONS (retry options));
                   wasConnected := false |};
  operation_attempt k.

(** [this._ws.onopen], created in scope [k]. *)
Definition onopen_handler (k : nat) : JS unit :=
  c ← gets closed;
  if c : bool then mret tt
  else
    set_wasConnected k true;;
    emit EvOpen.

(** [this._ws.onclose], created in scope [k]. *)
Definition onclose_handler (k : nat) (event : CloseEvent) : JS unit :=
  c ← gets closed;
  if c : bool then mret tt
  else
    logger LWarn (log_socket_close event);;
    let terminal : JS unit := set_closed true;; emit EvClose in
    if decide (code event ≠ 4000) then
      connected ← gets (scope_wasConnected k);
      if negb connected then
        again ← operation_retry k true;
        if again : bool then mret tt else terminal
      else
        operation_stop k;;
        emit EvDisconnected;;
        _setWebSocket
    else terminal.

(** [this._ws.onerror], created in scope [k]. *)
Definition onerror_handler (k : nat) : JS unit :=
  c ← gets closed;
  if c : bool then mret tt
  else logger LError log_socket_error.

(** [this._ws.onmessage], created in scope [k]. *)
Definition onmessage_handler (k : nat) (data : string) : JS unit :=
  c ← gets closed;
  if c : bool then mret tt
  else
    match Message_parse data with
    | None => mret tt
    | Some message =>
        n ← gets message_listeners;
        if decide (n = 0%nat) then logger LError log_no_listeners
        else emit (EvMessage message)
    end.

Definition send (message : JsValue) : JS Promise :=
  c ← gets closed;
  if c : bool then mret (Rejected (Error "transport closed"))
  else
    try_catch
      (i ← deref_ws;
       data ← stringify message;
       ws_send i data;;
       mret Resolved)
      (λ error,
         logger LError (log_send_error error);;
         mret (Rejected error)).

(** The [try] block of [close]. *)
Definition close_try : JS unit :=
  (i ← deref_ws; assign_onopen i None);;
  (i ← deref_ws; assign_onclose i None);;
  (i ← deref_ws; assign_onerror i None);;
  (i ← deref_ws; assign_onmessage i None);;
  (i ← deref_ws; ws_close i).

(** The [catch] block of [close]. *)
Definition close_catch (error : JsError) : JS unit :=
  logger LError (log_close_error error).

Definition close : JS unit :=
  logger LDebug log_close;;
  c ← gets closed;
  if c : bool then mret tt
  else
    set_closed true;;
    emit EvClose;;
    try_catch close_try close_catch.

(** The object as the constructor has initialised it when it reaches
    [this._setWebSocket()]. *)
Definition allocated (url : string) (options : option Options) : World :=
  {| this := {| _url := url; _options := default no_options options;
                _ws := None; _closed := false |};
     sockets := []; scopes := []; timers := [];
     message_listeners := 0;
     trace := [Logged LDebug (log_constructor url options)] |}.

Definition constructor (url : string) (options : option Options)
  : Completion unit * World :=
  _setWebSocket (allocated url options).

(** ** The environment: callers, the network and the timer queue *)

Inductive Action : Type :=
  | DoSend (message : JsValue)
  | DoClose
  | DoListen
  | DoUnlisten
  | Deliver (socket : nat) (ev : SocketEvent)
  | Fire (timer : nat).

(** The callback slot of a socket that an event of the given kind calls. *)
Definition handler_slot (ev : SocketEvent) (s : WebSocket) : option nat :=
  match ev with
  | SockOpen => onopen s
  | SockClose _ => onclose s
  | SockError => onerror s
  | SockMessage _ => onmessage s
  end.

(** The arrow function of scope [k] that serves an event of the given kind. *)
Definition handler (k : nat) (ev : SocketEvent) : JS unit :=
  match ev with
  | SockOpen => onopen_handler k
  | SockClose event => onclose_handler k event
  | SockError => onerror_handler k
  | SockMessage data => onmessage_handler k data
  end.

(** Socket [i] reports [ev]: its native state moves, then the callback
    assigned to the slot runs, if one is assigned. *)
Definition deliver (i : nat) (ev : SocketEvent) : JS unit :=
  modify (with_sockets (alter (λ s, set_native (native_event ev (native s)) s) i));;
  slot ← gets (λ w, s ← sockets w !! i; handler_slot ev s);
  match slot with
  | Some k => handler k ev
  | None => mret tt
  end.

(** A timer set by [operation.retry] expires: the operation counts the
    attempt and calls the attempt function. *)
Definition fire (n : nat) : JS unit :=
  t ← gets (λ w, timers w !! n);
  match t with
  | None => mret tt
  | Some (k, _) =>
      modify (with_timers (delete n));;
      set_operation k (λ op, {| _timeouts := _timeouts op;
                                _attempts := S (_attempts op) |});;
      operation_attempt k
  end.

Definition step (a : Action) : JS unit :=
  match a with
  | DoSend message => send message;; mret tt
  | DoClose => close
  | DoListen => modify (with_listeners S)
  | DoUnlisten => modify (with_listeners pred)
  | Deliver i ev => deliver i ev
  | Fire n => fire n
  end.

Definition run (acts : list Action) (w : World) : World :=
  foldl (λ w a, exec (step a) w) w acts.

(** The worlds a constructed transport can be in. *)
Definition reachable (w : World) : Prop :=
  ∃ url options acts, w = run acts (snd (constructor url options)).


(** *** Reading the trace *)

Definition emitted (w : World) : list PublicEvent :=
  omap (λ e, match e with Emitted ev => Some ev | _ => None end) (trace w).

(** The sockets constructed so far, one per connection attempt. *)
Definition connects (w : World) : list nat :=
  omap (λ e, match e with Called i CallNew => Some i | _ => None end) (trace w).

(** How many times the public [close] event was emitted. *)
Definition close_count (w : World) : nat :=
  length (omap (λ ev, match ev with EvClose => Some tt | _ => None end)
               (emitted w)).

(** One transition either keeps the transport open and emits no [close],
    or closes it and emits exactly one. *)
Definition lifecycle_step (w w' : World) : Prop :=
  (closed w' = false ∧
   ∃ evs, emitted w' = emitted w ++ evs ∧ Forall (λ ev, ev ≠ EvClose) evs)
  ∨ (closed w' = true ∧ emitted w' = emitted w ++ [EvClose]).

(** What remains of the retry budget of scope [k]. *)
Definition budget (k : nat) (w : World) : nat := length (scope_timeouts k w).

(** The policy every operation of this transport is created from. *)
Definition policy (w : World) : RetryOptions :=
  default DEFAULT_RETRY_OPTIONS (retry (_options (this w))).

(** The configured retry budget. *)
Definition configured_retries (w : World) : nat :=
  default 10%nat (retries (policy w)).

(** The socket object an attempt of scope [k] leaves in the heap. *)
Definition attempt_socket (k : nat) (w : World) : WebSocket :=
  let o := scope_options k w in
  {| native := W3CWebSocket (_url (this w)) "" (origin o) (headers o)
                            (requestOptions o) (clientConfig o);
     onopen := Some k; onclose := Some k;
     onerror := Some k; onmessage := Some k |}.

(** A socket object after its four callbacks were set to [null]. *)
Definition detached (s : WebSocket) : WebSocket :=
  {| native := native s; onopen := None; onclose := None;
     onerror := None; onmessage := None |}.

(** Whether a promise is a rejected one. *)
Definition rejected (p : Completion Promise) : Prop :=
  ∃ e, p = Normal (Rejected e).

(** The scope a call of [_setWebSocket] opens. *)
Definition fresh_scope (w : World) : Scope :=
  {| options := _options (this w);
     operation := retry_operation (policy w);
     wasConnected := false |}.

(** *** The phase before a connection is established

    The sockets of scope [k] report one close after the other, and timers
    of the queue may expire in between. *)
Inductive PhaseStep : Type :=
  | Closes (event : CloseEvent)
  | Expires (timer : nat).

Definition phase_step (k : nat) (x : PhaseStep) : JS unit :=
  match x with
  | Closes event => onclose_handler k event
  | Expires n => fire n
  end.

Definition phase (k : nat) (xs : list PhaseStep) (w : World) : World :=
  foldl (λ w x, exec (phase_step k x) w) w xs.

Definition closes (xs : list PhaseStep) : list CloseEvent :=
  omap (λ x, match x with Closes event => Some event | _ => None end) xs.

(** *** Histories

    What one scope may become while the transport runs: its options stay,
    [wasConnected] is not reset, the remaining delays do not grow and the
    attempt counter does not fall. *)
Definition scope_evolves (sc sc' : Scope) : Prop :=
  options sc' = options sc ∧
  (wasConnected sc = true → wasConnected sc' = true) ∧
  (length (_timeouts (operation sc')) ≤ length (_timeouts (operation sc)))%nat ∧
  (_attempts (operation sc) ≤ _attempts (operation sc'))%nat.

Definition scopes_evolve (l l' : list Scope) : Prop :=
  ∀ k sc, l !! k = Some sc → ∃ sc', l' !! k = Some sc' ∧ scope_evolves sc sc'.

(** One action either keeps the socket reference and the size of the heap
    or constructs one socket and makes it the current one. *)
Definition sockets_step (w w' : World) : Prop :=
  (_ws (this w') = _ws (this w) ∧ length (sockets w') = length (sockets w))
  ∨ (_ws (this w') = Some (length (sockets w)) ∧
     length (sockets w') = S (length (sockets w))).

Definition evolves (w w' : World) : Prop :=
  _url (this w') = _url (this w) ∧
  _options (this w') = _options (this w) ∧
  scopes_evolve (scopes w) (scopes w') ∧
  sockets_step w w'.



(** A connection that is established and lost again and again: socket
    [i] opens and then reports a close, socket [i + 1] opens, and so on. *)
Fixpoint reconnect_rounds (i : nat) (events : list CloseEvent) : list Action :=
  match events with
  | [] => []
  | event :: rest =>
      Deliver i SockOpen :: Deliver i (SockClose event)
      :: reconnect_rounds (S i) rest
  end.

(** ** Listeners

    [emit] records an emission.  The listeners of the event run inside the
    emission, before the statement after it: they are code of the caller
    that holds the transport, and what they can do to it is call [send],
    call [close], or throw.  A table gives, for each event, the statements
    of its listeners in the order of registration; a throw ends the
    emission and leaves it.  (Listeners that register or remove listeners
    are not covered.) *)
Inductive Reaction : Type :=
  | ReSend (message : JsValue)
  | ReClose
  | ReThrow (error : JsError).

Definition Listeners : Type := PublicEvent → list Reaction.

(** No listener does anything. *)
Definition silent : Listeners := λ _, [].

(** One statement of a listener; [close_] is what [close()] is for it. *)
Definition react (close_ : JS unit) (r : Reaction) : JS unit :=
  match r with
  | ReSend message => send message;; mret tt
  | ReClose => close_
  | ReThrow error => throw error
  end.

Definition react_all (close_ : JS unit) (rs : list Reaction) : JS unit :=
  foldr (λ r rest, react close_ r;; rest) (mret tt) rs.

(** [this.emit(ev)] with the listeners of table [L]. *)
Definition emit_with (close_ : JS unit) (L : Listeners) (ev : PublicEvent) : JS unit :=
  emit ev;; react_all close_ (L ev).

(** The body of [close], over the emission of its [close] event. *)
Definition close_with (emit_close : JS unit) : JS unit :=
  logger LDebug log_close;;
  c ← gets closed;
  if c : bool then mret tt
  else
    set_closed true;;
    emit_close;;
    try_catch close_try close_catch.

(** [close] with listeners.  A listener of [close] that calls [close()]
    does so with the flag set, where the call returns at its guard
    whatever the listeners are (see [close_L_fixpoint]). *)
Definition close_L (L : Listeners) : JS unit :=
  close_with (emit_with close L EvClose).

Definition emit_L (L : Listeners) (ev : PublicEvent) : JS unit :=
  emit_with (close_L L) L ev.

(** [this._ws.onopen] with listeners. *)
Definition onopen_handler_L (L : Listeners) (k : nat) : JS unit :=
  c ← gets closed;
  if c : bool then mret tt
  else
    set_wasConnected k true;;
    emit_L L EvOpen.

(** [this._ws.onclose] with listeners. *)
Definition onclose_handler_L (L : Listeners) (k : nat) (event : CloseEvent) : JS unit :=
  c ← gets closed;
  if c : bool then mret tt
  else
    logger LWarn (log_socket_close event);;
    let terminal : JS unit := set_closed true;; emit_L L EvClose in
    if decide (code event ≠ 4000) then
      connected ← gets (scope_wasConnected k);
      if negb connected then
        again ← operation_retry k true;
        if again : bool then mret tt else terminal
      else
        operation_stop k;;
        emit_L L EvDisconnected;;
        _setWebSocket
    else terminal.

(** [this._ws.onmessage] with listeners. *)
Definition onmessage_handler_L (L : Listeners) (k : nat) (data : string) : JS unit :=
  c ← gets closed;
  if c : bool then mret tt
  else
    match Message_parse data with
    | None => mret tt
    | Some message =>
        n ← gets message_listeners;
        if decide (n = 0%nat) then logger LError log_no_listeners
        else emit_L L (EvMessage message)
    end.

Definition handler_L (L : Listeners) (k : nat) (ev : SocketEvent) : JS unit :=
  match ev with
  | SockOpen => onopen_handler_L L k
  | SockClose event => onclose_handler_L L k event
  | SockError => onerror_handler k
  | SockMessage data => onmessage_handler_L L k data
  end.

Definition deliver_L (L : Listeners) (i : nat) (ev : SocketEvent) : JS unit :=
  modify (with_sockets (alter (λ s, set_native (native_event ev (native s)) s) i));;
  slot ← gets (λ w, s ← sockets w !! i; handler_slot ev s);
  match slot with
  | Some k => handler_L L k ev
  | None => mret tt
  end.

Definition step_L (L : Listeners) (a : Action) : JS unit :=
  match a with
  | DoSend message => send message;; mret tt
  | DoClose => close_L L
  | DoListen => modify (with_listeners S)
  | DoUnlisten => modify (with_listeners pred)
  | Deliver i ev => deliver_L L i ev
  | Fire n => fire n
  end.

(** A history with listeners; an exception that leaves a callback or a
    call ends that action and the history goes on. *)
Definition run_L (L : Listeners) (acts : list Action) (w : World) : World :=
  foldl (λ w a, exec (step_L L a) w) w acts.

(** The listeners' statements are calls of [send] only. *)
Definition sends_only (rs : list Reaction) : Prop :=
  Forall (λ r, ∃ message, r = ReSend message) rs.

(** The error of the first [throw] among the statements, if there is one. *)
Fixpoint first_throw (rs : list Reaction) : option JsError :=
  match rs with
  | [] => None
  | ReThrow error :: _ => Some error
  | _ :: rest => first_throw rest
  end.

(** How often [close()] is called before the first [throw]. *)
Fixpoint closes_before_throw (rs : list Reaction) : nat :=
  match rs with
  | [] => 0
  | ReThrow _ :: _ => 0
  | ReClose :: rest => S (closes_before_throw rest)
  | ReSend _ :: rest => closes_before_throw rest
  end.

(** ** The constructor on arguments the libraries refuse

    [retry.operation] throws when the policy has [minTimeout] above
    [maxTimeout], and the socket constructor throws on what it refuses;
    either aborts the constructor of the transport.  [constructor],
    [_setWebSocket] and [attempt_fn] above are these functions on the
    arguments that are accepted (see [constructor_checked_accepted]), and a
    transport that was constructed meets no refusal later, as its URL,
    options and policy are fixed (see [restart_accepted]). *)
Definition retry_refuses (opts : RetryOptions) : option JsError :=
  match maxTimeout opts with
  | Some cap =>
      if decide (cap < default 1000 (minTimeout opts))
      then Some (Error "minTimeout is greater than maxTimeout")
      else None
  | None => None
  end.

Definition new_W3CWebSocket_checked (url protocol : string)
    (origin headers requestOptions clientConfig : option JsValue) : JS nat :=
  match W3CWebSocket_refuses url protocol origin headers
                             requestOptions clientConfig with
  | Some error => throw error
  | None => new_W3CWebSocket url protocol origin headers
                             requestOptions clientConfig
  end.

Definition attempt_fn_checked (k : nat) (currentAttempt : nat) : JS unit :=
  c ← gets closed;
  if c : bool then operation_stop k
  else
    logger LDebug (log_attempt currentAttempt);;
    url ← gets (λ w, _url (this w));
    options ← gets (scope_options k);
    ws ← new_W3CWebSocket_checked url "" (origin options) (headers options)
                                  (requestOptions options) (clientConfig options);
    set_ws (Some ws);;
    (i ← deref_ws; assign_onopen i (Some k));;
    (i ← deref_ws; assign_onclose i (Some k));;
    (i ← deref_ws; assign_onerror i (Some k));;
    (i ← deref_ws; assign_onmessage i (Some k)).

Definition _setWebSocket_checked : JS unit :=
  options ← gets (λ w, _options (this w));
  match retry_refuses (default DEFAULT_RETRY_OPTIONS (retry options)) with
  | Some error => throw error
  | None =>
      k ← new_scope {| options := options;
                       operation := retry_operation
                         (default DEFAULT_RETRY_OPTIONS (retry options));
                       wasConnected := false |};
      n ← gets (scope_attempts k);
      attempt_fn_checked k n
  end.

Definition constructor_checked (url : string) (options : option Options)
  : Completion unit * World :=
  _setWebSocket_checked (allocated url options).

End Model.

(** ** A test double for the collaborators

    A socket that follows the ready-state protocol of the WebSocket API and
    keeps what was sent; a codec that accepts payloads opening a brace. *)

Inductive ReadyState : Type := CONNECTING | OPEN | CLOSING | CLOSED.

Record StubSocket : Type := {
  readyState : ReadyState;
  outbox : list string
}.

Definition stub_send (n : StubSocket) (data : string) : JsError + StubSocket :=
  match readyState n with
  | OPEN => inr {| readyState := OPEN; outbox := outbox n ++ [data] |}
  | _ => inl (Error "cannot call send() while not connected")
  end.

Definition stub_close (n : StubSocket) : JsError + StubSocket :=
  match readyState n with
  | CONNECTING | OPEN => inr {| readyState := CLOSING; outbox := outbox n |}
  | _ => inr n
  end.

Definition stub_event (ev : SocketEvent) (n : StubSocket) : StubSocket :=
  match ev with
  | SockOpen => {| readyState := OPEN; outbox := outbox n |}
  | SockClose _ => {| readyState := CLOSED; outbox := outbox n |}
  | _ => n
  end.

Definition stub_refuses (url : string) : option JsError :=
  match url with
  | String "w" (String "s" _) => None
  | _ => Some (Error "You must specify a full WebSocket URL, including protocol.")
  end.

Definition stub_parse (data : string) : option JsValue :=
  match data with
  | String "{" _ => Some (JsObject [("raw", JsString data)])
  | _ => None
  end.

Definition stub : Collaborators := {|
  Native := StubSocket;
  W3CWebSocket := λ _ _ _ _ _ _, {| readyState := CONNECTING; outbox := [] |};
  W3CWebSocket_refuses := λ url _ _ _ _ _, stub_refuses url;
  native_send := stub_send;
  native_close := stub_close;
  native_event := stub_event;
  Message_parse := stub_parse
|}.

(** *** Sample runs on the test double *)

Definition abnormal : CloseEvent :=
  {| wasClean := false; code := 1006; reason := "" |}.


(** Just constructed: the first socket is connecting. *)
Definition w_fresh : @World stub :=
  snd (constructor "ws://example.test/peer" None).


(** A listener was added and the first socket has opened. *)
Definition w_connected : @World stub :=
  run [DoListen; Deliver 0%nat SockOpen] w_fresh.

(** The caller has closed the connected transport. *)
Definition w_closed : @World stub := run [DoClose] w_connected.

(** The first socket has failed and the first retry is pending. *)
Definition w_backoff : @World stub :=
  run [Deliver 0%nat (SockClose abnormal)] w_fresh.

(** A policy with two retries, 100 ms apart at first. *)
Definition two_retries : Options :=
  {| origin := None; headers := None; requestOptions := None;
     clientConfig := None;
     retry := Some {| retries := Some 2%nat; factor := Some 2;
                      minTimeout := Some 100; maxTimeout := Some 1000 |} |}.

(** The first socket of [w_connected]. *)
Definition s_connected : @WebSocket stub :=
  @Build_WebSocket stub {| readyState := OPEN; outbox := [] |}
    (Some 0%nat) (Some 0%nat) (Some 0%nat) (Some 0%nat).

(** A request whose id is a BigInt. *)
Definition bigint_request : JsValue :=
  JsObject [("request", JsBool true); ("id", JsBigInt 1);
            ("method", JsString "ping")].

(** What the listeners below send. *)
Definition greeting : JsValue :=
  JsObject [("notification", JsBool true); ("method", JsString "hello")].

(** Listeners that greet the peer on [open] and [disconnected], and on
    [close] try to say goodbye and call [close()] once more. *)
Definition chatty : Listeners := λ ev,
  match ev with
  | EvOpen | EvDisconnected => [ReSend greeting]
  | EvClose => [ReSend greeting; ReClose]
  | EvMessage _ => []
  end.

(** A listener that closes the transport when the connection is lost. *)
Definition gives_up : Listeners := λ ev,
  match ev with
  | EvDisconnected => [ReClose]
  | _ => []
  end.

(** A listener of [close] that throws. *)
Definition faulty : Listeners := λ ev,
  match ev with
  | EvClose => [ReThrow (Error "listener failed")]
  | _ => []
  end.

(** A policy that [retry.operation] refuses. *)
Definition bad_backoff : Options :=
  {| origin := None; headers := None; requestOptions := None;
     clientConfig := None;
     retry := Some {| retries := Some 3%nat; factor := Some 2;
                      minTimeout := Some 5000; maxTimeout := Some 1000 |} |}.

(** * Properties *)

Section Properties.
Context {C : Collaborators}.

(** Unfolds the monad so that a statement list becomes a term on worlds. *)
Ltac js_unfold :=
  unfold mbind, mret, JS_bind, JS_ret, gets, modify, throw, try_catch, exec in *.

Ltac js_simpl := js_unfold; simpl in *.

(** Closes goals that compare the events read off two traces. *)
Ltac trace_solve :=
  unfold emitted, connects; simpl;
  rewrite ?omap_app, ?app_nil_r, <- ?app_assoc; done.

(** ** Guards of the callbacks *)

Lemma onopen_closed (k : nat) (w : World) :
  closed w = true → onopen_handler k w = (Normal tt, w).
Proof. intros Hc. unfold onopen_handler. js_unfold. by rewrite Hc. Qed.

Lemma onclose_closed (k : nat) (event : CloseEvent) (w : World) :
  closed w = true → onclose_handler k event w = (Normal tt, w).
Proof. intros Hc. unfold onclose_handler. js_unfold. by rewrite Hc. Qed.

Lemma onerror_closed (k : nat) (w : World) :
  closed w = true → onerror_handler k w = (Normal tt, w).
Proof. intros Hc. unfold onerror_handler. js_unfold. by rewrite Hc. Qed.

Lemma onmessage_closed (k : nat) (data : string) (w : World) :
  closed w = true → onmessage_handler k data w = (Normal tt, w).
Proof. intros Hc. unfold onmessage_handler. js_unfold. by rewrite Hc. Qed.

Lemma handler_closed (k : nat) (ev : SocketEvent) (w : World) :
  closed w = true → handler k ev w = (Normal tt, w).
Proof.
  intros Hc. destruct ev; simpl;
    auto using onopen_closed, onclose_closed, onerror_closed, onmessage_closed.
Qed.

(** ** A closed transport stays as it is *)

Lemma fire_closed (n : nat) (w : World) :
  closed w = true →
  let w' := exec (fire n) w in
  this w' = this w ∧ trace w' = trace w ∧ sockets w' = sockets w.
Proof.
  intros Hc. unfold fire, operation_attempt, attempt_fn, operation_stop, set_operation.
  js_simpl. destruct (timers w !! n) as [[k d]|]; simpl; [|done].
  unfold closed in *. simpl. by rewrite Hc.
Qed.

Lemma deliver_closed (i : nat) (ev : SocketEvent) (w : World) :
  closed w = true →
  let w' := exec (deliver i ev) w in
  this w' = this w ∧ trace w' = trace w ∧
  length (sockets w') = length (sockets w).
Proof.
  intros Hc. unfold deliver. js_unfold. cbv beta iota.
  set (w1 := with_sockets _ w).
  assert (Hc1 : closed w1 = true) by done.
  case_match.
  - rewrite (handler_closed _ ev w1 Hc1). simpl.
    by rewrite length_alter.
  - simpl. by rewrite length_alter.
Qed.

Lemma send_closed (message : JsValue) (w : World) :
  closed w = true →
  send message w = (Normal (Rejected (Error "transport closed")), w).
Proof. intros Hc. unfold send. js_unfold. by rewrite Hc. Qed.

Lemma close_closed (w : World) :
  closed w = true →
  close w = (Normal tt, record (Logged LDebug log_close) w).
Proof.
  intros Hc. unfold close, logger. js_simpl.
  unfold closed in *. simpl. by rewrite Hc.
Qed.

Lemma emitted_record_log (lvl : LogLevel) (msg : LogMessage) (w : World) :
  emitted (record (Logged lvl msg) w) = emitted w.
Proof. unfold emitted. simpl. rewrite omap_app. simpl. by rewrite app_nil_r. Qed.

Lemma connects_record_log (lvl : LogLevel) (msg : LogMessage) (w : World) :
  connects (record (Logged lvl msg) w) = connects w.
Proof. unfold connects. simpl. rewrite omap_app. simpl. by rewrite app_nil_r. Qed.

Lemma step_closed (a : Action) (w : World) :
  closed w = true →
  let w' := exec (step a) w in
  this w' = this w ∧ emitted w' = emitted w ∧ connects w' = connects w ∧
  length (sockets w') = length (sockets w).
Proof.
  intros Hc. destruct a as [m| | | |i ev|n]; simpl.
  - unfold exec. simpl. unfold mbind, JS_bind. by rewrite send_closed.
  - unfold exec. rewrite close_closed by done. simpl.
    by rewrite emitted_record_log, connects_record_log.
  - done.
  - done.
  - destruct (deliver_closed i ev w Hc) as (Ht & Htr & Hl).
    unfold emitted, connects. by rewrite Htr.
  - destruct (fire_closed n w Hc) as (Ht & Htr & Hl).
    unfold emitted, connects. by rewrite Htr, Hl.
Qed.

Lemma run_closed (acts : list Action) (w : World) :
  closed w = true →
  let w' := run acts w in
  this w' = this w ∧ emitted w' = emitted w ∧ connects w' = connects w ∧
  length (sockets w') = length (sockets w).
Proof.
  revert w. induction acts as [|a acts IH]; intros w Hc; simpl; [done|].
  destruct (step_closed a w Hc) as (Ht & He & Hn & Hl).
  assert (Hc' : closed (exec (step a) w) = true).
  { unfold closed in *. by rewrite Ht. }
  destruct (IH _ Hc') as (Ht' & He' & Hn' & Hl').
  unfold run in *. simpl in *. by rewrite Ht', He', Hn', Hl'.
Qed.

(** ** The close callback *)

(** The world after the terminal branch of [onclose]. *)
Lemma onclose_terminal (k : nat) (event : CloseEvent) (w : World) :
  closed w = false →
  code event = 4000 ∨ (scope_wasConnected k w = false ∧ scope_timeouts k w = []) →
  onclose_handler k event w =
    (Normal tt,
     record (Emitted EvClose)
       (with_this (with_closed true)
          (record (Logged LWarn (log_socket_close event)) w))).
Proof.
  intros Hc Hterm. unfold onclose_handler, logger, emit, set_closed.
  js_unfold. rewrite Hc. cbv beta iota.
  destruct (decide (code event ≠ 4000)) as [Hne|Heq]; [|done].
  destruct Hterm as [Heq|[Hwc Hts]]; [done|].
  unfold scope_wasConnected in *. simpl. rewrite Hwc. simpl.
  unfold operation_retry. js_unfold. simpl.
  unfold scope_timeouts in *. simpl. by rewrite Hts.
Qed.

(** ** Connection attempts *)

Lemma alter_snoc {A : Type} (f : A → A) (l : list A) (x : A) :
  alter f (length l) (l ++ [x]) = l ++ [f x].
Proof. rewrite alter_app_r_alt by lia. by rewrite Nat.sub_diag. Qed.

Lemma lookup_snoc {A : Type} (l : list A) (x : A) :
  (l ++ [x]) !! length l = Some x.
Proof. by apply list_lookup_middle. Qed.

(** An attempt on a transport that is not closed constructs a socket,
    makes it the current one and assigns its four callbacks. *)
Lemma attempt_fn_open (k n : nat) (w : World) :
  closed w = false →
  ∃ w', attempt_fn k n w = (Normal tt, w') ∧
    this w' = {| _url := _url (this w); _options := _options (this w);
                 _ws := Some (length (sockets w)); _closed := false |} ∧
    sockets w' = sockets w ++ [attempt_socket k w] ∧
    scopes w' = scopes w ∧
    timers w' = timers w ∧
    message_listeners w' = message_listeners w ∧
    trace w' = trace w ++ [Logged LDebug (log_attempt n);
                           Called (length (sockets w)) CallNew].
Proof.
  intros Hc. unfold attempt_fn, logger, new_W3CWebSocket, set_ws, with_ws,
    deref_ws, assign_onopen, assign_onclose, assign_onerror, assign_onmessage.
  js_unfold. rewrite Hc. cbn -[alter]. eexists. split; [reflexivity|].
  cbn -[alter]. unfold closed in Hc. rewrite Hc.
  split; [done|]. split; [by rewrite !alter_snoc|].
  repeat split. by rewrite <- app_assoc.
Qed.

(** An expiring retry timer on a transport that is not closed makes a new
    connection attempt. *)
Lemma fire_open (n k : nat) (delay : Z) (w : World) :
  closed w = false →
  timers w !! n = Some (k, delay) →
  ∃ w', fire n w = (Normal tt, w') ∧
    closed w' = false ∧
    _ws (this w') = Some (length (sockets w)) ∧
    length (sockets w') = S (length (sockets w)) ∧
    connects w' = connects w ++ [length (sockets w)] ∧
    emitted w' = emitted w ∧
    timers w' = delete n (timers w) ∧
    (∀ j, scope_wasConnected j w' = scope_wasConnected j w) ∧
    (∀ j, scope_timeouts j w' = scope_timeouts j w).
Proof.
  intros Hc Ht. unfold fire, operation_attempt. js_unfold. rewrite Ht.
  cbv beta iota. unfold set_operation. js_unfold.
  set (w1 := with_scopes _ (with_timers _ w)).
  destruct (attempt_fn_open k (scope_attempts k w1) w1 Hc)
    as (w' & -> & Hthis & Hs & Hsc & Htm & _ & Htr).
  exists w'. split; [done|].
  split; [by unfold closed; rewrite Hthis|].
  split; [by rewrite Hthis|].
  split; [by rewrite Hs, length_app; simpl; lia|].
  split; [by unfold connects; rewrite Htr, omap_app|].
  split; [by unfold emitted; rewrite Htr, omap_app, app_nil_r|].
  split; [by rewrite Htm|].
  split; intros j.
  - unfold scope_wasConnected. rewrite Hsc. simpl.
    rewrite list_lookup_alter. case_decide; [subst j|done].
    by destruct (scopes w !! k).
  - unfold scope_timeouts. rewrite Hsc. simpl.
    rewrite list_lookup_alter. case_decide; [subst j|done].
    by destruct (scopes w !! k).
Qed.

(** [_setWebSocket] on a transport that is not closed opens a scope with a
    full retry operation and runs its first attempt at once. *)
Lemma setWebSocket_open (w : World) :
  closed w = false →
  ∃ w', _setWebSocket w = (Normal tt, w') ∧
    this w' = {| _url := _url (this w); _options := _options (this w);
                 _ws := Some (length (sockets w)); _closed := false |} ∧
    sockets w' = sockets w ++
                 [attempt_socket (length (scopes w))
                    (with_scopes (λ l, l ++ [fresh_scope w]) w)] ∧
    scopes w' = scopes w ++ [fresh_scope w] ∧
    timers w' = timers w ∧
    message_listeners w' = message_listeners w ∧
    trace w' = trace w ++ [Logged LDebug (log_attempt 1);
                           Called (length (sockets w)) CallNew].
Proof.
  intros Hc. unfold _setWebSocket, new_scope, operation_attempt. js_unfold.
  cbv beta iota.
  set (w1 := with_scopes _ w).
  assert (Hn : scope_attempts (length (scopes w)) w1 = 1%nat).
  { unfold scope_attempts, w1. simpl. by rewrite lookup_snoc. }
  rewrite Hn.
  destruct (attempt_fn_open (length (scopes w)) 1 w1 Hc)
    as (w' & -> & Hthis & Hs & Hsc & Htm & Hl & Htr).
  by exists w'.
Qed.

(** The retry library precomputes exactly [retries] delays. *)
Lemma retry_timeouts_length (opts : RetryOptions) :
  length (retry_timeouts opts) = default 10%nat (retries opts).
Proof.
  unfold retry_timeouts.
  rewrite (Permutation_length (merge_sort_Permutation _ _)).
  by rewrite length_fmap, length_seq.
Qed.

(** The restart branch of [onclose]: stop, announce, start from scratch. *)
Lemma onclose_restart (k : nat) (event : CloseEvent) (w : World) :
  closed w = false →
  code event ≠ 4000 →
  scope_wasConnected k w = true →
  onclose_handler k event w =
    _setWebSocket
      (record (Emitted EvDisconnected)
         (exec (operation_stop k)
            (record (Logged LWarn (log_socket_close event)) w))).
Proof.
  intros Hc Hcode Hwc.
  unfold onclose_handler, logger, emit. js_unfold. rewrite Hc. cbv beta iota.
  destruct (decide (code event ≠ 4000)) as [_|]; [|done].
  replace (scope_wasConnected k (record (Logged LWarn (log_socket_close event)) w))
    with true by done.
  done.
Qed.

(** ** Failed attempts *)

(** The retry branch of [onclose]: the next delay is consumed and the
    attempt function is scheduled; nothing else changes. *)
Lemma onclose_retry (k : nat) (event : CloseEvent) (w : World)
    (delay : Z) (rest : list Z) :
  closed w = false →
  code event ≠ 4000 →
  scope_wasConnected k w = false →
  scope_timeouts k w = delay :: rest →
  ∃ w', onclose_handler k event w = (Normal tt, w') ∧
    this w' = this w ∧
    sockets w' = sockets w ∧
    timers w' = timers w ++ [(k, delay)] ∧
    trace w' = trace w ++ [Logged LWarn (log_socket_close event)] ∧
    scope_timeouts k w' = rest ∧
    scope_wasConnected k w' = false.
Proof.
  intros Hc Hcode Hwc Hts.
  unfold onclose_handler, logger. js_unfold. rewrite Hc. cbv beta iota.
  destruct (decide (code event ≠ 4000)) as [_|]; [|done].
  replace (scope_wasConnected k (record (Logged LWarn (log_socket_close event)) w))
    with false by done.
  change (negb false) with true. cbv beta iota.
  unfold operation_retry, setTimeout, set_operation. js_unfold.
  change (negb true) with false. cbv beta iota.
  replace (scope_timeouts k (record (Logged LWarn (log_socket_close event)) w))
    with (delay :: rest) by done.
  cbv beta iota. eexists. split; [reflexivity|].
  repeat split.
  - unfold scope_timeouts in *. simpl. rewrite list_lookup_alter_eq.
    by destruct (scopes w !! k).
  - unfold scope_wasConnected in *. simpl. rewrite list_lookup_alter_eq.
    by destruct (scopes w !! k).
Qed.

(** A timer that expires while the transport is not closed touches neither
    the public events, nor the flag, nor any retry budget. *)
Lemma fire_frame (n : nat) (w : World) :
  closed w = false →
  let w' := exec (fire n) w in
  closed w' = false ∧ emitted w' = emitted w ∧
  (∀ j, scope_wasConnected j w' = scope_wasConnected j w) ∧
  (∀ j, scope_timeouts j w' = scope_timeouts j w).
Proof.
  intros Hc. destruct (timers w !! n) as [[k d]|] eqn:Ht.
  - destruct (fire_open n k d w Hc Ht)
      as (w' & Hf & Hc' & _ & _ & _ & He & _ & Hwc & Hts).
    unfold exec. by rewrite Hf.
  - unfold fire. js_unfold. by rewrite Ht.
Qed.

Lemma phase_app (k : nat) (xs ys : list PhaseStep) (w : World) :
  phase k (xs ++ ys) w = phase k ys (phase k xs w).
Proof. unfold phase. apply foldl_app. Qed.

(** Through a phase of non-terminal closes that fits into the budget the
    transport stays open and silent, and each close costs one retry. *)
Lemma phase_invariant (k : nat) (xs : list PhaseStep) (w : World) :
  closed w = false →
  scope_wasConnected k w = false →
  Forall (λ event, code event ≠ 4000) (closes xs) →
  (length (closes xs) ≤ budget k w)%nat →
  let w' := phase k xs w in
  closed w' = false ∧
  scope_wasConnected k w' = false ∧
  emitted w' = emitted w ∧
  (budget k w' + length (closes xs) = budget k w)%nat.
Proof.
  revert w. induction xs as [|x xs IH]; intros w Hc Hwc Hcodes Hfit.
  { simpl. repeat split; (done || lia). }
  destruct x as [event|n].
  - simpl in Hcodes, Hfit. apply Forall_cons in Hcodes as [Hcode Hcodes].
    unfold budget in Hfit.
    destruct (scope_timeouts k w) as [|delay rest] eqn:Hts; [simpl in Hfit; lia|].
    destruct (onclose_retry k event w delay rest Hc Hcode Hwc Hts)
      as (w1 & Hstep & Hthis & _ & _ & Htr & Hts1 & Hwc1).
    assert (Hc1 : closed w1 = false) by (unfold closed; by rewrite Hthis).
    assert (Hfit1 : (length (closes xs) ≤ budget k w1)%nat).
    { unfold budget. rewrite Hts1. simpl in Hfit. lia. }
    destruct (IH w1 Hc1 Hwc1 Hcodes Hfit1) as (Hc' & Hwc' & He' & Hb').
    cbv zeta in *.
    change (phase k (Closes event :: xs) w)
      with (phase k xs (exec (onclose_handler k event) w)).
    assert (Hw1 : exec (onclose_handler k event) w = w1)
      by (unfold exec; by rewrite Hstep).
    rewrite Hw1. repeat split; try done.
    + rewrite He'. unfold emitted. rewrite Htr.
      by rewrite omap_app, app_nil_r.
    + unfold budget in *. rewrite Hts1 in Hb'.
      rewrite Hts. simpl. lia.
  - simpl in Hcodes, Hfit.
    destruct (fire_frame n w Hc) as (Hc1 & He1 & Hwc1 & Hts1).
    assert (Hfit1 : (length (closes xs) ≤ budget k (exec (fire n) w))%nat).
    { unfold budget. by rewrite Hts1. }
    destruct (IH (exec (fire n) w) Hc1 (eq_trans (Hwc1 k) Hwc) Hcodes Hfit1)
      as (Hc' & Hwc' & He' & Hb').
    cbv zeta in *.
    change (phase k (Expires n :: xs) w) with (phase k xs (exec (fire n) w)).
    repeat split; try done.
    + by rewrite He'.
    + unfold budget in *. by rewrite Hts1 in Hb'.
Qed.

(** ** send *)

(** The three paths of [send] past the guard, for a transport whose current
    socket is [s] at index [i]. *)
Lemma send_open (message : JsValue) (w : World) (i : nat) (s : WebSocket) :
  closed w = false →
  _ws (this w) = Some i →
  sockets w !! i = Some s →
  send message w =
    match JSON_stringify message with
    | inl e => (Normal (Rejected e), record (Logged LError (log_send_error e)) w)
    | inr data =>
        match native_send (native s) data with
        | inl e =>
            (Normal (Rejected e),
             record (Logged LError (log_send_error e))
               (record (Called i (CallSend data)) w))
        | inr n =>
            (Normal Resolved,
             record (Called i (CallSend data))
               (with_sockets (λ l, <[i := set_native n s]> l) w))
        end
    end.
Proof.
  intros Hc Hws Hs.
  unfold send, stringify, deref_ws, ws_send, logger. js_unfold.
  rewrite Hc, Hws. cbv beta iota.
  destruct (JSON_stringify message) as [e|data]; [done|]. cbv beta iota.
  rewrite Hs. by destruct (native_send (native s) data).
Qed.

(** ** close *)

Lemma alter_at {A : Type} (f : A → A) (l : list A) (i : nat) (x : A) :
  l !! i = Some x → alter f i l = <[i := f x]> l.
Proof.
  revert i. induction l as [|y l IH]; intros [|i] Hi; simplify_eq/=; [done|].
  f_equal. auto.
Qed.

(** The [try] block of [close] on the current socket: the four callbacks
    are detached, then the socket is asked to close. *)
Lemma close_try_current (w : World) (i : nat) (s : WebSocket) :
  _ws (this w) = Some i →
  sockets w !! i = Some s →
  close_try w =
    match native_close (native s) with
    | inl e =>
        (Throw e,
         record (Called i CallClose)
           (with_sockets (λ l, <[i := detached s]> l) w))
    | inr n =>
        (Normal tt,
         record (Called i CallClose)
           (with_sockets (λ l, <[i := set_native n (detached s)]> l) w))
    end.
Proof.
  intros Hws Hs.
  assert (Hi : (i < length (sockets w))%nat) by eauto using lookup_lt_Some.
  unfold close_try, deref_ws, assign_onopen, assign_onclose, assign_onerror,
    assign_onmessage, ws_close.
  js_unfold.
  repeat first [rewrite Hws | progress cbv beta iota zeta
               | progress cbn [this with_sockets sockets]].
  unfold record, with_sockets.
  cbn [this sockets scopes timers message_listeners trace].
  rewrite !list_alter_alter_eq, (alter_at _ _ _ _ Hs).
  rewrite (list_lookup_insert_eq _ _ _ Hi).
  cbn -[insert]. unfold detached.
  destruct (native_close (native s)) as [e|n]; [done|].
  by rewrite list_insert_insert_eq.
Qed.

(** Whatever the [try] block of [close] does, the catch clause turns it
    into a normal completion that keeps the fields of the transport. *)
Lemma close_try_caught (w : World) :
  ∃ w', try_catch close_try close_catch w = (Normal tt, w') ∧
    this w' = this w ∧
    length (sockets w') = length (sockets w) ∧
    emitted w' = emitted w ∧
    connects w' = connects w.
Proof.
  unfold try_catch, close_catch, logger, modify.
  destruct (_ws (this w)) as [i|] eqn:Hws.
  - destruct (sockets w !! i) as [s|] eqn:Hs.
    + rewrite (close_try_current w i s Hws Hs).
      destruct (native_close (native s)); eexists; (split; [reflexivity|]);
        simpl; rewrite length_insert; unfold emitted, connects; simpl;
        by rewrite !omap_app, !app_nil_r.
    + assert (Hi : (length (sockets w) ≤ i)%nat) by by apply lookup_ge_None.
      unfold close_try, deref_ws, assign_onopen, assign_onclose,
        assign_onerror, assign_onmessage, ws_close.
      js_unfold.
      repeat first [rewrite Hws | progress cbv beta iota zeta
                   | progress cbn [this with_sockets sockets]].
      rewrite !list_lookup_alter_eq, Hs. cbn -[alter].
      eexists. split; [reflexivity|]. simpl.
      rewrite !length_alter. unfold emitted, connects. simpl.
      by rewrite !omap_app, !app_nil_r.
  - unfold close_try, deref_ws. js_unfold. rewrite Hws. cbv beta iota.
    eexists. split; [reflexivity|]. simpl. unfold emitted, connects. simpl.
    by rewrite !omap_app, !app_nil_r.
Qed.

(** [close] past its guard: the flag and the event first, the [try] block
    on the world they leave. *)
Lemma close_open (w : World) :
  closed w = false →
  close w =
    try_catch close_try close_catch
      (record (Emitted EvClose)
         (with_this (with_closed true)
            (record (Logged LDebug log_close) w))).
Proof.
  intros Hc. unfold close at 1, logger, emit, set_closed. js_unfold.
  replace (closed (record (Logged LDebug log_close) w)) with false by done.
  done.
Qed.

(** [close] completes normally on every world, and leaves [closed] set. *)
Lemma close_total (w : World) :
  ∃ w', close w = (Normal tt, w') ∧ closed w' = true ∧
    _ws (this w') = _ws (this w) ∧
    length (sockets w') = length (sockets w) ∧
    connects w' = connects w.
Proof.
  destruct (closed w) eqn:Hc.
  - rewrite close_closed by done. eexists. split; [done|].
    split; [done|]. split; [done|]. split; [done|].
    apply connects_record_log.
  - rewrite close_open by done.
    match goal with |- context [try_catch _ _ ?m] =>
      destruct (close_try_caught m) as (w' & -> & Hthis & Hl & _ & Hn) end.
    exists w'. split; [done|].
    split; [by unfold closed; rewrite Hthis|].
    split; [by rewrite Hthis|]. split; [by rewrite Hl|].
    rewrite Hn. unfold connects. simpl. by rewrite !omap_app, !app_nil_r.
Qed.

(** ** The message callback *)

(** ** The socket reference *)






Lemma send_frame (message : JsValue) (w : World) :
  this (exec (send message) w) = this w ∧
  length (sockets (exec (send message) w)) = length (sockets w).
Proof.
  unfold send, stringify, deref_ws, ws_send, logger. js_unfold.
  destruct (closed w); [done|]. cbv beta iota.
  destruct (_ws (this w)) as [i|]; [|done].
  destruct (JSON_stringify message) as [e|data]; [done|]. cbv beta iota.
  destruct (sockets w !! i) as [s|]; [|done].
  destruct (native_send (native s) data); [done|].
  simpl. by rewrite length_insert.
Qed.



Lemma constructor_ws_ok (url : string) (options : option Options) :
  ∃ w, constructor url options = (Normal tt, w) ∧
    closed w = false ∧
    _ws (this w) = Some 0%nat ∧
    sockets w = [attempt_socket 0 w].
Proof.
  unfold constructor.
  destruct (setWebSocket_open (allocated url options) eq_refl)
    as (w & Hf & Hthis & Hs & Hsc & _).
  exists w. split; [done|]. split; [by unfold closed; rewrite Hthis|].
  split; [by rewrite Hthis|].
  rewrite Hs. simpl. unfold attempt_socket, scope_options.
  by rewrite Hsc, Hthis.
Qed.

(** ** The lifecycle: closed once, [close] emitted once *)

Lemma lifecycle_quiet (w w' : World) :
  closed w' = false → emitted w' = emitted w → lifecycle_step w w'.
Proof. intros Hc He. left. split; [done|]. exists []. by rewrite app_nil_r. Qed.

Lemma emitted_record_emit (ev : PublicEvent) (w : World) :
  emitted (record (Emitted ev) w) = emitted w ++ [ev].
Proof. unfold emitted. simpl. by rewrite omap_app. Qed.

Lemma emitted_record_call (i : nat) (c : SocketCall) (w : World) :
  emitted (record (Called i c) w) = emitted w.
Proof. unfold emitted. simpl. by rewrite omap_app, app_nil_r. Qed.

Lemma handler_lifecycle (k : nat) (ev : SocketEvent) (w : World) :
  closed w = false → lifecycle_step w (exec (handler k ev) w).
Proof.
  intros Hc. destruct ev as [|event| |data]; simpl.
  - unfold onopen_handler, set_wasConnected, emit. js_unfold. rewrite Hc.
    left. split; [done|]. exists [EvOpen]. cbn [snd].
    rewrite emitted_record_emit. split; [done|]. by repeat constructor.
  - destruct (decide (code event = 4000)) as [Hcode|Hcode].
    { unfold exec. rewrite onclose_terminal by auto. right. split; [done|].
      trace_solve. }
    destruct (scope_wasConnected k w) eqn:Hwc.
    + unfold exec. rewrite (onclose_restart k event w Hc Hcode Hwc).
      match goal with |- context [_setWebSocket ?w1] =>
        destruct (setWebSocket_open w1 Hc)
          as (w' & -> & Hthis & _ & _ & _ & _ & Htr) end.
      cbn [snd]. left. split; [by unfold closed; rewrite Hthis|].
      exists [EvDisconnected]. split; [|by repeat constructor].
      unfold emitted. rewrite Htr. trace_solve.
    + destruct (scope_timeouts k w) as [|delay rest] eqn:Hts.
      * unfold exec. rewrite onclose_terminal by auto. right. split; [done|].
        trace_solve.
      * destruct (onclose_retry k event w delay rest Hc Hcode Hwc Hts)
          as (w' & Hf & Hthis & _ & _ & Htr & _).
        unfold exec. rewrite Hf. cbn [snd]. apply lifecycle_quiet.
        -- unfold closed. by rewrite Hthis.
        -- unfold emitted. by rewrite Htr, omap_app, app_nil_r.
  - unfold onerror_handler, logger. js_unfold. rewrite Hc.
    apply lifecycle_quiet; [done|]. apply emitted_record_log.
  - unfold onmessage_handler, logger, emit. js_unfold. rewrite Hc.
    cbv beta iota. destruct (Message_parse data) as [m|]; cbv beta iota.
    + destruct (decide (message_listeners w = 0%nat)); cbn [snd].
      * apply lifecycle_quiet; [done|]. apply emitted_record_log.
      * left. split; [done|]. exists [EvMessage m].
        rewrite emitted_record_emit. split; [done|]. by repeat constructor.
    + by apply lifecycle_quiet.
Qed.

Lemma send_emitted (message : JsValue) (w : World) :
  emitted (exec (send message) w) = emitted w.
Proof.
  unfold send, stringify, deref_ws, ws_send, logger. js_unfold.
  destruct (closed w); [done|]. cbv beta iota.
  destruct (_ws (this w)) as [i|]; [|by cbn [snd]; rewrite emitted_record_log].
  destruct (JSON_stringify message) as [e|data];
    [by cbn [snd]; rewrite emitted_record_log|].
  cbv beta iota.
  destruct (sockets w !! i) as [s|]; [|by cbn [snd]; rewrite emitted_record_log].
  destruct (native_send (native s) data); cbn [snd];
    by rewrite ?emitted_record_log, ?emitted_record_call.
Qed.

Lemma step_lifecycle (a : Action) (w : World) :
  closed w = false → lifecycle_step w (exec (step a) w).
Proof.
  intros Hc. destruct a as [m| | | |i ev|n]; simpl.
  - pose proof (send_emitted m w) as He.
    destruct (send_frame m w) as [Ht _].
    unfold exec, mbind, JS_bind in *. simpl.
    destruct (send m w) as [[p|e] w']; simpl in *;
      (apply lifecycle_quiet; [by unfold closed; rewrite Ht|done]).
  - unfold exec. rewrite close_open by done.
    match goal with |- context [try_catch _ _ ?m] =>
      destruct (close_try_caught m) as (w' & -> & Hthis & _ & He & _) end.
    right. cbn [snd]. split; [by unfold closed; rewrite Hthis|].
    rewrite He. trace_solve.
  - by apply lifecycle_quiet.
  - by apply lifecycle_quiet.
  - unfold deliver. js_unfold. cbv beta iota.
    set (w1 := with_sockets _ w).
    case_match; [|by apply lifecycle_quiet].
    by apply (handler_lifecycle _ ev w1).
  - destruct (fire_frame n w Hc) as (Hc' & He & _). by apply lifecycle_quiet.
Qed.

Lemma close_count_step (w w' : World) :
  lifecycle_step w w' →
  close_count w = 0%nat →
  close_count w' = if closed w' then 1%nat else 0%nat.
Proof.
  intros [(Hc & evs & He & Hevs)|(Hc & He)] Hz; rewrite Hc;
    unfold close_count in *; rewrite He, omap_app, length_app, Hz.
  - clear He. induction Hevs as [|ev evs Hev _ IH]; [done|].
    destruct ev; simpl in *; done.
  - done.
Qed.

(** In every world a constructed transport can reach, the [close] event has
    been emitted once if the transport is closed and never otherwise. *)
Lemma close_emitted_once (w : World) :
  reachable w → close_count w = if closed w then 1%nat else 0%nat.
Proof.
  intros (url & options & acts & ->).
  destruct (constructor_ws_ok url options) as (w0 & Hf & Hc0 & _).
  rewrite Hf. cbn [snd].
  assert (H0 : close_count w0 = if closed w0 then 1%nat else 0%nat).
  { rewrite Hc0. unfold constructor in Hf.
    destruct (setWebSocket_open (allocated url options) eq_refl)
      as (w0' & Hf' & _ & _ & _ & _ & _ & Htr).
    rewrite Hf in Hf'. injection Hf' as <-.
    unfold close_count, emitted. by rewrite Htr. }
  clear Hf Hc0. revert w0 H0.
  induction acts as [|a acts IH]; intros w Hinv; [done|].
  simpl. apply IH. destruct (closed w) eqn:Hc.
  - destruct (step_closed a w Hc) as (Ht & He & _).
    unfold close_count, closed in *. by rewrite He, Ht, Hc.
  - apply (close_count_step w); [by apply step_lifecycle|].
    rewrite Hinv. by rewrite ?Hc.
Qed.

Lemma run_app (acts1 acts2 : list Action) (w : World) :
  run (acts1 ++ acts2) w = run acts2 (run acts1 w).
Proof. unfold run. apply foldl_app. Qed.

Lemma reachable_run (acts : list Action) (w : World) :
  reachable w → reachable (run acts w).
Proof.
  intros (url & options & acts0 & ->).
  exists url, options, (acts0 ++ acts). by rewrite run_app.
Qed.

(** ** The claims of the specification *)

(** C1: once [closed] is true, it stays true through every later history,
    and each of the four socket callbacks, whenever it is invoked from then
    on, returns at its guard: it completes normally and leaves the whole
    world (transport fields, sockets, scopes, timers, trace) as it was, so
    no public event is added after the one that came with closing; on a
    constructed transport that one [close] event is the only [close] event
    of the whole history. *)
Theorem callbacks_after_closed_are_noops (w : World) :
  closed w = true →
  ∀ (acts : list Action) (k : nat),
    let w' := run acts w in
    closed w' = true ∧
    emitted w' = emitted w ∧
    onopen_handler k w' = (Normal tt, w') ∧
    (∀ event, onclose_handler k event w' = (Normal tt, w')) ∧
    onerror_handler k w' = (Normal tt, w') ∧
    (∀ data, onmessage_handler k data w' = (Normal tt, w')) ∧
    (reachable w → close_count w' = 1%nat).
Proof.
  intros Hc acts k w'.
  destruct (run_closed acts w Hc) as (Ht & He & _).
  assert (Hc' : closed w' = true).
  { unfold closed, w' in *. by rewrite Ht. }
  split; [done|]. split; [done|].
  split; [by apply onopen_closed|]. split; [intros; by apply onclose_closed|].
  split; [by apply onerror_closed|]. split; [intros; by apply onmessage_closed|].
  intros Hreach. unfold close_count, w'. rewrite He.
  fold (close_count w). by rewrite (close_emitted_once w Hreach), Hc.
Qed.


(** C4: take a transport that is not closed and a scope that has not been
    connected, and let its sockets report closes with codes other than 4000,
    at most as many as the retry budget holds, with retry timers expiring in
    between at will.  Then the transport is still not closed at the end, it
    has emitted no public event (no [close], no [disconnected]), each close
    has cost one retry, and each close of the sequence, at the moment it
    arrives, finds a positive budget, completes normally, adds exactly one
    timer for the attempt function of that scope to the timer queue,
    emits nothing and constructs no socket itself; when that timer expires,
    the attempt constructs the next socket. *)
Theorem failed_attempts_keep_retrying
    (k : nat) (xs : list PhaseStep) (w : World) :
  closed w = false →
  scope_wasConnected k w = false →
  Forall (λ event, code event ≠ 4000) (closes xs) →
  (length (closes xs) ≤ budget k w)%nat →
  let w' := phase k xs w in
  closed w' = false ∧
  emitted w' = emitted w ∧
  (budget k w' + length (closes xs) = budget k w)%nat ∧
  ∀ before event after, xs = before ++ Closes event :: after →
    let wb := phase k before w in
    (0 < budget k wb)%nat ∧
    ∃ wa delay,
      onclose_handler k event wb = (Normal tt, wa) ∧
      timers wa = timers wb ++ [(k, delay)] ∧
      emitted wa = emitted wb ∧
      closed wa = false ∧
      connects wa = connects wb ∧
      connects (exec (fire (length (timers wb))) wa) =
        connects wa ++ [length (sockets wa)].
Proof.
  intros Hc Hwc Hcodes Hfit.
  destruct (phase_invariant k xs w Hc Hwc Hcodes Hfit) as (Hc' & _ & He' & Hb').
  cbv zeta. split; [done|]. split; [done|]. split; [done|].
  intros before event after ->.
  unfold closes in Hcodes, Hfit. rewrite omap_app in Hcodes, Hfit.
  simpl in Hcodes, Hfit. fold (closes before) in Hcodes, Hfit.
  fold (closes after) in Hcodes, Hfit.
  apply Forall_app in Hcodes as [Hcb Hca].
  apply Forall_cons in Hca as [Hcode _].
  rewrite length_app in Hfit. simpl in Hfit.
  destruct (phase_invariant k before w Hc Hwc Hcb ltac:(lia))
    as (Hcb' & Hwcb' & Heb' & Hbb').
  cbv zeta in Hcb', Hwcb', Heb', Hbb'.
  split; [lia|].
  unfold budget in Hbb'.
  destruct (scope_timeouts k (phase k before w)) as [|delay rest] eqn:Hts;
    [simpl in Hbb'; unfold budget in Hfit; lia|].
  destruct (onclose_retry k event _ delay rest Hcb' Hcode Hwcb' Hts)
    as (wa & Hstep & Hthis & _ & Htm & Htr & _ & _).
  assert (Hca : closed wa = false) by (unfold closed; by rewrite Hthis).
  exists wa, delay. split; [done|]. split; [done|].
  split; [by unfold emitted; rewrite Htr, omap_app, app_nil_r|].
  split; [done|].
  split; [by unfold connects; rewrite Htr, omap_app, app_nil_r|].
  destruct (fire_open (length (timers (phase k before w))) k delay wa Hca)
    as (wf & Hf & _ & _ & _ & Hn & _).
  { rewrite Htm. apply lookup_snoc. }
  unfold exec. by rewrite Hf.
Qed.

(** C5, as the code has it: [send] fails exactly when the transport is
    closed, or serialising the message throws, or the send of the socket
    throws.  Closed: rejected with the transport closed error and the world
    untouched (no socket call, no log).  Serialisation throws: the error is
    logged and is the rejection, the socket is not called.  Socket send
    throws: the socket was called with the serialised text, the error is
    logged and is the rejection.  Otherwise the serialised text went to the
    current socket and the promise is resolved. *)
Theorem send_outcomes
    (message : JsValue) (w : World) (i : nat) (s : WebSocket) :
  _ws (this w) = Some i →
  sockets w !! i = Some s →
  (rejected (fst (send message w)) ↔
     closed w = true ∨
     (∃ e, JSON_stringify message = inl e) ∨
     (∃ data e, JSON_stringify message = inr data ∧
                native_send (native s) data = inl e)) ∧
  (closed w = true →
     send message w = (Normal (Rejected (Error "transport closed")), w)) ∧
  (closed w = false → ∀ e, JSON_stringify message = inl e →
     send message w =
       (Normal (Rejected e), record (Logged LError (log_send_error e)) w)) ∧
  (closed w = false → ∀ data e,
     JSON_stringify message = inr data →
     native_send (native s) data = inl e →
     send message w =
       (Normal (Rejected e),
        record (Logged LError (log_send_error e))
          (record (Called i (CallSend data)) w))) ∧
  (closed w = false → ∀ data n,
     JSON_stringify message = inr data →
     native_send (native s) data = inr n →
     send message w =
       (Normal Resolved,
        record (Called i (CallSend data))
          (with_sockets (λ l, <[i := set_native n s]> l) w))).
Proof.
  intros Hws Hs.
  split; [|split; [by apply send_closed|]].
  - destruct (closed w) eqn:Hc.
    + rewrite send_closed by done. split; [by left|]. intros _. by eexists.
    + rewrite (send_open message w i s Hc Hws Hs).
      destruct (JSON_stringify message) as [e|data].
      * split; [intros _; right; left; by eexists|]. intros _. by eexists.
      * destruct (native_send (native s) data) as [e|n] eqn:Hn.
        -- split; [|intros _; by eexists].
           intros _. right. right. by exists data, e.
        -- split; [intros [e He]; done|].
           intros [|[[e He]|(d & e & Hd & He)]]; [done|done|].
           injection Hd as <-. congruence.
  - split; [|split].
    + intros Hc e He. rewrite (send_open message w i s Hc Hws Hs). by rewrite He.
    + intros Hc data e Hd He.
      rewrite (send_open message w i s Hc Hws Hs). by rewrite Hd, He.
    + intros Hc data n Hd Hn.
      rewrite (send_open message w i s Hc Hws Hs). by rewrite Hd, Hn.
Qed.

(** C7: whatever the transport was, after one call of [close] the flag is
    set, and every further call of [close] completes normally, emits
    nothing and leaves the transport fields, the sockets, the scopes, the
    timers and the listeners as the first call left them; all it adds is
    its debug line in the log. *)
Theorem close_is_idempotent (w : World) (n : nat) :
  let w1 := exec close w in
  let wn := Nat.iter n (exec close) w1 in
  closed w1 = true ∧
  close wn = (Normal tt, record (Logged LDebug log_close) wn) ∧
  this wn = this w1 ∧
  sockets wn = sockets w1 ∧
  scopes wn = scopes w1 ∧
  timers wn = timers w1 ∧
  message_listeners wn = message_listeners w1 ∧
  emitted wn = emitted w1 ∧
  trace wn = trace w1 ++ replicate n (Logged LDebug log_close).
Proof.
  intros w1 wn.
  assert (Hc1 : closed w1 = true).
  { unfold w1, exec. by destruct (close_total w) as (w' & -> & Hc & _). }
  assert (Hn : this wn = this w1 ∧ sockets wn = sockets w1 ∧
               scopes wn = scopes w1 ∧ timers wn = timers w1 ∧
               message_listeners wn = message_listeners w1 ∧
               trace wn = trace w1 ++ replicate n (Logged LDebug log_close)).
  { unfold wn. clear wn. induction n as [|n IH].
    - simpl. by rewrite app_nil_r.
    - destruct IH as (Ht & Hs & Hsc & Htm & Hl & Htr).
      set (wi := Nat.iter n (exec close) w1) in *.
      change (Nat.iter (S n) (exec close) w1) with (exec close wi).
      assert (Hc : closed wi = true) by (unfold closed; by rewrite Ht).
      unfold exec. rewrite (close_closed wi Hc).
      cbn [snd record this sockets scopes timers message_listeners trace].
      repeat split; try done.
      rewrite Htr, <- app_assoc. f_equal.
      replace (S n) with (n + 1)%nat by lia. by rewrite replicate_add. }
  destruct Hn as (Ht & Hs & Hsc & Htm & Hl & Htr).
  split; [done|]. split.
  { apply close_closed. unfold closed. by rewrite Ht. }
  repeat split; try done.
  unfold emitted. rewrite Htr, omap_app.
  assert (Hlog : omap (λ e, match e with Emitted ev => Some ev | _ => None end)
                   (replicate n (Logged LDebug log_close)) = []).
  { clear. induction n; simpl; auto. }
  by rewrite Hlog, app_nil_r.
Qed.

(** C8: a message callback that reaches a transport that is not closed
    always completes normally.  A payload the codec does not decode leaves
    the world untouched (no event, no log); a decoded message with no
    listener only adds the error line to the log; a decoded message with a
    listener only adds the [message] event carrying the decoded value.  So
    a [message] event with value [m] is emitted exactly when the payload
    decodes to [m] and a listener is registered. *)
Theorem message_callback (k : nat) (data : string) (w : World) :
  closed w = false →
  (Message_parse data = None →
     onmessage_handler k data w = (Normal tt, w)) ∧
  (∀ m, Message_parse data = Some m → message_listeners w = 0%nat →
     onmessage_handler k data w =
       (Normal tt, record (Logged LError log_no_listeners) w)) ∧
  (∀ m, Message_parse data = Some m → message_listeners w ≠ 0%nat →
     onmessage_handler k data w =
       (Normal tt, record (Emitted (EvMessage m)) w)) ∧
  fst (onmessage_handler k data w) = Normal tt ∧
  (∀ m, emitted (exec (onmessage_handler k data) w) = emitted w ++ [EvMessage m]
        ↔ Message_parse data = Some m ∧ message_listeners w ≠ 0%nat) ∧
  (emitted (exec (onmessage_handler k data) w) = emitted w
   ∨ ∃ m, emitted (exec (onmessage_handler k data) w) = emitted w ++ [EvMessage m]).
Proof.
  intros Hc.
  assert (Hno : ∀ m, emitted w ≠ emitted w ++ [EvMessage m]).
  { intros m Heq. apply (f_equal length) in Heq.
    rewrite length_app in Heq. simpl in Heq. lia. }
  unfold onmessage_handler, logger, emit. js_unfold. rewrite Hc. cbv beta iota.
  destruct (Message_parse data) as [m|]; cbv beta iota.
  - destruct (decide (message_listeners w = 0%nat)) as [Hz|Hnz];
      cbn [fst snd].
    + rewrite emitted_record_log.
      split; [done|]. split; [done|]. split; [done|]. split; [done|].
      split; [|by left]. intros m'. split; [intros Heq; by destruct (Hno m')|].
      by intros [_ ?].
    + assert (He : emitted (record (Emitted (EvMessage m)) w)
                   = emitted w ++ [EvMessage m]).
      { unfold emitted. simpl. by rewrite omap_app. }
      split; [done|]. split; [done|].
      split; [by intros m' [= <-] _|]. split; [done|].
      rewrite He. split; [|right; by exists m].
      intros m'. split.
      * intros Heq. apply app_inj_tail in Heq as [_ [= <-]]. done.
      * by intros [[= <-] _].
  - split; [done|]. split; [done|]. split; [done|]. split; [done|].
    split; [|by left]. intros m'. split; [intros Heq; by destruct (Hno m')|].
    by intros [? _].
Qed.

(** C9: [send] leaves the fields of the transport object (URL, options,
    socket reference, closed flag) as they were, on each of its three
    paths. *)
Theorem send_preserves_transport (message : JsValue) (w : World) :
  this (exec (send message) w) = this w.
Proof.
  unfold send, stringify, deref_ws, ws_send, logger. js_unfold.
  destruct (closed w); [done|]. cbv beta iota.
  destruct (_ws (this w)) as [i|]; [|done].
  destruct (JSON_stringify message) as [e|data]; [done|]. cbv beta iota.
  destruct (sockets w !! i) as [s|]; [|done].
  by destruct (native_send (native s) data).
Qed.


(** ** Further properties of the class *)

(** *** The constructor *)

(** The world the constructor leaves. *)
Lemma constructor_world (url : string) (options : option Options) :
  let o := default no_options options in
  ∃ w, constructor url options = (Normal tt, w) ∧
    this w = {| _url := url; _options := o; _ws := Some 0%nat;
                _closed := false |} ∧
    sockets w = [{| native := W3CWebSocket url "" (origin o) (headers o)
                                           (requestOptions o) (clientConfig o);
                    onopen := Some 0%nat; onclose := Some 0%nat;
                    onerror := Some 0%nat; onmessage := Some 0%nat |}] ∧
    scopes w = [{| options := o;
                   operation := retry_operation
                                  (default DEFAULT_RETRY_OPTIONS (retry o));
                   wasConnected := false |}] ∧
    budget 0 w = default 10%nat
                   (retries (default DEFAULT_RETRY_OPTIONS (retry o))) ∧
    timers w = [] ∧
    message_listeners w = 0%nat ∧
    emitted w = [] ∧
    trace w = [Logged LDebug (log_constructor url options);
               Logged LDebug (log_attempt 1); Called 0 CallNew].
Proof.
  intros o. unfold constructor.
  destruct (setWebSocket_open (allocated url options) eq_refl)
    as (w & Hf & Hthis & Hs & Hsc & Htm & Hl & Htr).
  exists w. split; [done|]. split; [done|].
  split; [by rewrite Hs|]. split; [by rewrite Hsc|].
  split. { unfold budget, scope_timeouts. rewrite Hsc. simpl.
    apply retry_timeouts_length. }
  split; [done|]. split; [done|].
  split; [by unfold emitted; rewrite Htr|]. by rewrite Htr.
Qed.

(** *** A transport that never connects *)


(** The socket a retry attempt constructs is appended to the heap, wired to
    the scope of the timer. *)
Lemma fire_wires (n k : nat) (delay : Z) (w : World) :
  closed w = false →
  timers w !! n = Some (k, delay) →
  ∃ s, sockets (exec (fire n) w) = sockets w ++ [s] ∧
       onopen s = Some k ∧ onclose s = Some k ∧
       onerror s = Some k ∧ onmessage s = Some k.
Proof.
  intros Hc Ht. unfold fire, operation_attempt. js_unfold. rewrite Ht.
  cbv beta iota. unfold set_operation. js_unfold.
  set (w1 := with_scopes _ (with_timers _ w)).
  destruct (attempt_fn_open k (scope_attempts k w1) w1 Hc)
    as (w' & -> & _ & Hs & _).
  cbn [snd]. rewrite Hs. by eexists.
Qed.




(** *** close and what follows it *)

(** [close] touches neither the scopes, nor the timers, nor the listeners. *)
Lemma close_frame (w : World) :
  scopes (exec close w) = scopes w ∧
  timers (exec close w) = timers w ∧
  message_listeners (exec close w) = message_listeners w.
Proof.
  destruct (closed w) eqn:Hc.
  { unfold exec. by rewrite close_closed. }
  unfold exec. rewrite close_open by done.
  set (m := record (Emitted EvClose) _).
  change (scopes w) with (scopes m). change (timers w) with (timers m).
  change (message_listeners w) with (message_listeners m).
  clearbody m. unfold try_catch, close_catch, logger, modify.
  destruct (_ws (this m)) as [i|] eqn:Hws.
  - destruct (sockets m !! i) as [s|] eqn:Hs.
    + rewrite (close_try_current m i s Hws Hs).
      by destruct (native_close (native s)).
    + unfold close_try, deref_ws, assign_onopen, assign_onclose,
        assign_onerror, assign_onmessage, ws_close.
      js_unfold.
      repeat first [rewrite Hws | progress cbv beta iota zeta
                   | progress cbn [this with_sockets sockets]].
      by rewrite !list_lookup_alter_eq, Hs.
  - unfold close_try, deref_ws. js_unfold. by rewrite Hws.
Qed.

(** X6: whatever the transport was, after [close] every [send] is rejected
    with the transport closed error and changes nothing: no socket call,
    no log line. *)
Theorem send_after_close_rejects (message : JsValue) (w : World) :
  let w1 := exec close w in
  send message w1 = (Normal (Rejected (Error "transport closed")), w1).
Proof.
  intros w1. apply send_closed. unfold w1, exec.
  by destruct (close_total w) as (w' & -> & Hc & _).
Qed.

(** X4: a retry timer that is still pending when the caller closes the
    transport expires without effect on the outside: no socket is
    constructed, nothing is emitted or logged, the fields of the transport
    stay; the operation it belongs to is stopped and the timer is gone. *)
Theorem close_defuses_pending_retry
    (n k : nat) (delay : Z) (w : World) :
  timers w !! n = Some (k, delay) →
  let w1 := exec close w in
  let w2 := exec (fire n) w1 in
  closed w2 = true ∧
  this w2 = this w1 ∧
  sockets w2 = sockets w1 ∧
  trace w2 = trace w1 ∧
  budget k w2 = 0%nat ∧
  timers w2 = delete n (timers w).
Proof.
  intros Ht w1 w2.
  assert (Hc1 : closed w1 = true).
  { unfold w1, exec. by destruct (close_total w) as (w' & -> & Hc & _). }
  destruct (close_frame w) as (Hsc & Htm & _). fold w1 in Hsc, Htm.
  destruct (fire_closed n w1 Hc1) as (Hthis & Htr & Hs). fold w2 in Hthis, Htr, Hs.
  split; [by unfold closed; rewrite Hthis|].
  split; [done|]. split; [done|]. split; [done|].
  assert (Ht1 : timers w1 !! n = Some (k, delay)) by by rewrite Htm.
  unfold w2, fire, operation_attempt, attempt_fn, operation_stop, set_operation.
  js_unfold. rewrite Ht1. cbv beta iota.
  replace (closed (with_scopes _ (with_timers (delete n) w1))) with true
    by by rewrite <- Hc1.
  cbn [snd]. split; [|by simpl; rewrite Htm].
  unfold budget, scope_timeouts. simpl.
  rewrite list_lookup_alter_eq, list_lookup_alter_eq.
  by destruct (scopes w1 !! k).
Qed.


(** *** What no history changes *)

Lemma scope_evolves_refl (sc : Scope) : scope_evolves sc sc.
Proof. by repeat split. Qed.

Lemma scopes_evolve_refl (l : list Scope) : scopes_evolve l l.
Proof. intros k sc Hk. exists sc. split; [done|apply scope_evolves_refl]. Qed.

Lemma scopes_evolve_trans (l1 l2 l3 : list Scope) :
  scopes_evolve l1 l2 → scopes_evolve l2 l3 → scopes_evolve l1 l3.
Proof.
  intros H12 H23 k sc Hk.
  destruct (H12 k sc Hk) as (sc2 & Hk2 & Ho & Hw & Ht & Ha).
  destruct (H23 k sc2 Hk2) as (sc3 & Hk3 & Ho' & Hw' & Ht' & Ha').
  exists sc3. split; [done|]. split; [congruence|].
  split; [auto|]. split; lia.
Qed.

Lemma scopes_evolve_alter (f : Scope → Scope) (k : nat) (l : list Scope) :
  (∀ sc, l !! k = Some sc → scope_evolves sc (f sc)) →
  scopes_evolve l (alter f k l).
Proof.
  intros Hf j sc Hj. rewrite list_lookup_alter.
  case_decide as Hkj; [subst j|].
  - rewrite Hj. exists (f sc). split; [done|]. by apply Hf.
  - exists sc. split; [done|apply scope_evolves_refl].
Qed.

Lemma scopes_evolve_app (l l' : list Scope) : scopes_evolve l (l ++ l').
Proof.
  intros k sc Hk. exists sc. split; [|apply scope_evolves_refl].
  by apply lookup_app_l_Some.
Qed.

(** A transition that keeps the socket reference and the size of the heap. *)
Lemma evolves_frame (w w' : World) :
  _url (this w') = _url (this w) →
  _options (this w') = _options (this w) →
  _ws (this w') = _ws (this w) →
  length (sockets w') = length (sockets w) →
  scopes_evolve (scopes w) (scopes w') →
  evolves w w'.
Proof. intros. repeat split; try done. by left. Qed.

Lemma evolves_refl (w : World) : evolves w w.
Proof. apply evolves_frame; try done. apply scopes_evolve_refl. Qed.

(** A transition seen from a world that differs in nothing it reads. *)
Lemma evolves_pre (w w1 w' : World) :
  this w1 = this w →
  scopes w1 = scopes w →
  length (sockets w1) = length (sockets w) →
  evolves w1 w' → evolves w w'.
Proof.
  intros Ht Hs Hl (Hu & Ho & Hsc & Hst). unfold evolves, sockets_step in *.
  by rewrite <- Ht, <- Hs, <- Hl.
Qed.

Lemma setWebSocket_evolves (w : World) :
  closed w = false → evolves w (exec _setWebSocket w).
Proof.
  intros Hc.
  destruct (setWebSocket_open w Hc) as (w' & Hf & Hthis & Hs & Hsc & _).
  unfold exec. rewrite Hf. cbn [snd]. unfold evolves, sockets_step.
  rewrite Hthis, Hs, Hsc, length_app. simpl.
  split; [done|]. split; [done|]. split; [apply scopes_evolve_app|].
  right. split; [done|lia].
Qed.

(** The scopes after the retry branch of [onclose]. *)
Lemma onclose_retry_scopes (k : nat) (event : CloseEvent) (w : World)
    (delay : Z) (rest : list Z) :
  closed w = false →
  code event ≠ 4000 →
  scope_wasConnected k w = false →
  scope_timeouts k w = delay :: rest →
  scopes (exec (onclose_handler k event) w) =
    alter (λ sc, {| options := options sc;
                    operation := {| _timeouts := rest;
                                    _attempts := _attempts (operation sc) |};
                    wasConnected := wasConnected sc |}) k (scopes w).
Proof.
  intros Hc Hcode Hwc Hts.
  unfold onclose_handler, logger. js_unfold. rewrite Hc. cbv beta iota.
  destruct (decide (code event ≠ 4000)) as [_|]; [|done].
  replace (scope_wasConnected k (record (Logged LWarn (log_socket_close event)) w))
    with false by done.
  change (negb false) with true. cbv beta iota.
  unfold operation_retry, setTimeout, set_operation. js_unfold.
  change (negb true) with false. cbv beta iota.
  replace (scope_timeouts k (record (Logged LWarn (log_socket_close event)) w))
    with (delay :: rest) by done.
  done.
Qed.

Lemma onclose_evolves (k : nat) (event : CloseEvent) (w : World) :
  evolves w (exec (onclose_handler k event) w).
Proof.
  destruct (closed w) eqn:Hc.
  { unfold exec. rewrite onclose_closed by done. apply evolves_refl. }
  destruct (decide (code event = 4000)) as [Hcode|Hcode].
  { unfold exec. rewrite onclose_terminal by auto.
    apply evolves_frame; try done. apply scopes_evolve_refl. }
  destruct (scope_wasConnected k w) eqn:Hwc.
  - unfold exec at 1. rewrite (onclose_restart k event w Hc Hcode Hwc).
    set (w1 := record (Emitted EvDisconnected) _).
    destruct (setWebSocket_evolves w1 Hc) as (Hu & Ho & Hsc & Hst).
    split; [done|]. split; [done|]. split; [|done].
    apply (scopes_evolve_trans _ (scopes w1)); [|done].
    unfold w1, operation_stop, set_operation. js_unfold. simpl.
    apply scopes_evolve_alter. intros sc _. repeat split; simpl; (done || lia).
  - destruct (scope_timeouts k w) as [|delay rest] eqn:Hts.
    + unfold exec. rewrite onclose_terminal by auto.
      apply evolves_frame; try done. apply scopes_evolve_refl.
    + pose proof (onclose_retry_scopes k event w delay rest Hc Hcode Hwc Hts)
        as Hsc.
      destruct (onclose_retry k event w delay rest Hc Hcode Hwc Hts)
        as (w' & Hf & Hthis & Hs & _).
      unfold exec in *. rewrite Hf in *. cbn [snd] in *.
      apply evolves_frame; try by rewrite ?Hthis, ?Hs.
      rewrite Hsc. apply scopes_evolve_alter. intros sc Hk.
      unfold scope_timeouts in Hts. rewrite Hk in Hts. simpl in Hts.
      repeat split; simpl; try done. rewrite Hts. simpl. lia.
Qed.

Lemma handler_evolves (k : nat) (ev : SocketEvent) (w : World) :
  evolves w (exec (handler k ev) w).
Proof.
  destruct ev as [|event| |data]; simpl.
  - unfold onopen_handler, set_wasConnected, emit. js_unfold.
    destruct (closed w); [apply evolves_refl|].
    apply evolves_frame; try done. simpl.
    apply scopes_evolve_alter. intros sc _. by repeat split.
  - apply onclose_evolves.
  - unfold onerror_handler, logger. js_unfold.
    destruct (closed w); apply evolves_refl || (apply evolves_frame; try done);
      apply scopes_evolve_refl.
  - unfold onmessage_handler, logger, emit. js_unfold.
    destruct (closed w); [apply evolves_refl|]. cbv beta iota.
    destruct (Message_parse data); [|apply evolves_refl]. cbv beta iota.
    destruct (decide (message_listeners w = 0%nat));
      (apply evolves_frame; try done); apply scopes_evolve_refl.
Qed.

Lemma send_scopes (message : JsValue) (w : World) :
  scopes (exec (send message) w) = scopes w.
Proof.
  unfold send, stringify, deref_ws, ws_send, logger. js_unfold.
  destruct (closed w); [done|]. cbv beta iota.
  destruct (_ws (this w)) as [i|]; [|done].
  destruct (JSON_stringify message) as [e|data]; [done|]. cbv beta iota.
  destruct (sockets w !! i) as [s|]; [|done].
  by destruct (native_send (native s) data).
Qed.

Lemma close_static (w : World) :
  _url (this (exec close w)) = _url (this w) ∧
  _options (this (exec close w)) = _options (this w).
Proof.
  destruct (closed w) eqn:Hc.
  { unfold exec. by rewrite close_closed. }
  unfold exec. rewrite close_open by done.
  match goal with |- context [try_catch _ _ ?m] =>
    destruct (close_try_caught m) as (w' & -> & Hthis & _) end.
  cbn [snd]. by rewrite Hthis.
Qed.

Lemma step_evolves (a : Action) (w : World) :
  evolves w (exec (step a) w).
Proof.
  destruct a as [m| | | |i ev|n]; simpl.
  - destruct (send_frame m w) as [Ht Hl].
    pose proof (send_scopes m w) as Hsc.
    unfold exec, mbind, JS_bind in *. simpl.
    destruct (send m w) as [[p|e] w']; simpl in *;
      (apply evolves_frame; rewrite ?Ht, ?Hsc; try done);
      apply scopes_evolve_refl.
  - destruct (close_static w) as [Hu Ho].
    destruct (close_frame w) as (Hsc & _).
    destruct (close_total w) as (w' & Hf & _ & Hws & Hl & _).
    unfold exec in *. rewrite Hf in *. cbn [snd] in *.
    apply evolves_frame; try done. rewrite Hsc. apply scopes_evolve_refl.
  - apply evolves_frame; try done. apply scopes_evolve_refl.
  - apply evolves_frame; try done. apply scopes_evolve_refl.
  - unfold deliver. js_unfold. cbv beta iota.
    set (w1 := with_sockets _ w).
    assert (Hl1 : length (sockets w1) = length (sockets w)).
    { unfold w1. simpl. by rewrite length_alter. }
    case_match.
    + apply (evolves_pre w w1); try done. apply handler_evolves.
    + cbn [snd]. apply evolves_frame; try done. apply scopes_evolve_refl.
  - unfold fire, operation_attempt, set_operation. js_unfold.
    destruct (timers w !! n) as [[k d]|]; [|apply evolves_refl].
    cbv beta iota.
    set (w1 := with_scopes _ (with_timers _ w)).
    assert (Hsc1 : scopes_evolve (scopes w) (scopes w1)).
    { unfold w1. simpl. apply scopes_evolve_alter. intros sc _.
      repeat split; simpl; (done || lia). }
    destruct (closed w1) eqn:Hc1.
    + unfold attempt_fn, operation_stop, set_operation. js_unfold.
      rewrite Hc1. cbn [snd]. apply evolves_frame; try done.
      apply (scopes_evolve_trans _ (scopes w1)); [done|]. simpl.
      apply scopes_evolve_alter. intros sc _.
      repeat split; simpl; (done || lia).
    + destruct (attempt_fn_open k (scope_attempts k w1) w1 Hc1)
        as (w' & -> & Hthis & Hs & Hsc & _).
      cbn [snd]. unfold evolves, sockets_step.
      rewrite Hthis, Hs, Hsc, length_app. simpl.
      split; [done|]. split; [done|]. split; [done|].
      right. split; [done|lia].
Qed.

(** Through any history the URL and the options stay, every scope evolves
    and no socket leaves the heap. *)
Lemma run_evolves (acts : list Action) (w : World) :
  _url (this (run acts w)) = _url (this w) ∧
  _options (this (run acts w)) = _options (this w) ∧
  scopes_evolve (scopes w) (scopes (run acts w)) ∧
  (length (sockets w) ≤ length (sockets (run acts w)))%nat.
Proof.
  revert w. induction acts as [|a acts IH]; intros w.
  { repeat split; try done. apply scopes_evolve_refl. }
  destruct (step_evolves a w) as (Hu & Ho & Hsc & Hst).
  destruct (IH (exec (step a) w)) as (Hu' & Ho' & Hsc' & Hl').
  change (run (a :: acts) w) with (run acts (exec (step a) w)).
  split; [congruence|]. split; [congruence|].
  split; [by apply (scopes_evolve_trans _ (scopes (exec (step a) w)))|].
  destruct Hst as [[_ Hl]|[_ Hl]]; lia.
Qed.



(** X7: no history of calls, socket events and timers changes the URL or
    the options of the transport, nor the options a scope has captured. *)
Theorem url_and_options_are_fixed (acts : list Action) (w : World) :
  _url (this (run acts w)) = _url (this w) ∧
  _options (this (run acts w)) = _options (this w) ∧
  ∀ k sc, scopes w !! k = Some sc →
    scope_options k (run acts w) = options sc.
Proof.
  destruct (run_evolves acts w) as (Hu & Ho & Hsc & _).
  split; [done|]. split; [done|]. intros k sc Hk.
  destruct (Hsc k sc Hk) as (sc' & Hk' & Hopt & _).
  unfold scope_options. by rewrite Hk'.
Qed.

(** X8: [wasConnected] is never reset: once the open callback of a scope
    has set it, it stays set through every history. *)
Theorem wasConnected_is_never_reset (acts : list Action) (k : nat) (w : World) :
  scope_wasConnected k w = true →
  scope_wasConnected k (run acts w) = true.
Proof.
  intros Hwc. destruct (run_evolves acts w) as (_ & _ & Hsc & _).
  unfold scope_wasConnected in *.
  destruct (scopes w !! k) as [sc|] eqn:Hk; [|done].
  destruct (Hsc k sc Hk) as (sc' & Hk' & _ & Hw & _).
  rewrite Hk'. by apply Hw.
Qed.

(** X9: the retry budget of an operation never grows and its attempt
    counter never falls, whatever happens to the transport: only a new
    scope starts from the full budget again. *)
Theorem budget_never_grows (acts : list Action) (k : nat) (w : World) :
  (k < length (scopes w))%nat →
  (budget k (run acts w) ≤ budget k w)%nat ∧
  (scope_attempts k w ≤ scope_attempts k (run acts w))%nat.
Proof.
  intros Hk. destruct (lookup_lt_is_Some_2 _ _ Hk) as [sc Hsc].
  destruct (run_evolves acts w) as (_ & _ & Hev & _).
  destruct (Hev k sc Hsc) as (sc' & Hk' & _ & _ & Ht & Ha).
  unfold budget, scope_timeouts, scope_attempts. by rewrite Hsc, Hk'.
Qed.


(** *** What send leaves alone *)

(** X12: [send] changes at most the native state of the current socket and
    the trace: scopes, timers, listeners and emitted events stay, no socket
    is constructed, every other socket object stays as it is, and no
    callback of any socket is reassigned. *)
Theorem send_touches_only_the_current_socket (message : JsValue) (w : World) :
  let w' := exec (send message) w in
  scopes w' = scopes w ∧
  timers w' = timers w ∧
  message_listeners w' = message_listeners w ∧
  emitted w' = emitted w ∧
  connects w' = connects w ∧
  length (sockets w') = length (sockets w) ∧
  (∀ j, _ws (this w) ≠ Some j → sockets w' !! j = sockets w !! j) ∧
  (∀ j ev, sockets w' !! j ≫= handler_slot ev
           = sockets w !! j ≫= handler_slot ev).
Proof.
  cbv zeta. unfold send, stringify, deref_ws, ws_send, logger. js_unfold.
  destruct (closed w); [done|]. cbv beta iota.
  destruct (_ws (this w)) as [i|];
    [|cbn [snd]; repeat split; (done || trace_solve)].
  destruct (JSON_stringify message) as [e|data];
    [cbn [snd]; repeat split; (done || trace_solve)|].
  cbv beta iota.
  destruct (sockets w !! i) as [s|] eqn:Hs;
    [|cbn [snd]; repeat split; (done || trace_solve)].
  destruct (native_send (native s) data) as [e|n]; cbn [snd].
  { repeat split; (done || trace_solve). }
  split; [done|]. split; [done|]. split; [done|].
  split; [trace_solve|]. split; [trace_solve|].
  split; [by simpl; rewrite length_insert|].
  split.
  - intros j Hj. simpl. apply list_lookup_insert_ne. congruence.
  - intros j ev. simpl. rewrite list_lookup_insert.
    case_decide as Hij; [|done]. destruct Hij as [-> _].
    rewrite Hs. by destruct ev.
Qed.

(** *** A retry attempt *)

(** X14: when a retry timer expires on a transport that is not closed, the
    operation counts the attempt and logs its number, one socket is
    constructed, appended to the heap, made the current one and wired to
    the scope of the operation; every earlier socket object stays as it
    was, callbacks included, and nothing is emitted. *)
Theorem retry_attempt_adds_one_socket
    (n k : nat) (delay : Z) (w : World) :
  closed w = false →
  timers w !! n = Some (k, delay) →
  (k < length (scopes w))%nat →
  let w' := exec (fire n) w in
  (∃ s, sockets w' = sockets w ++ [s] ∧
        onopen s = Some k ∧ onclose s = Some k ∧
        onerror s = Some k ∧ onmessage s = Some k) ∧
  _ws (this w') = Some (length (sockets w)) ∧
  scope_attempts k w' = S (scope_attempts k w) ∧
  budget k w' = budget k w ∧
  trace w' = trace w ++ [Logged LDebug (log_attempt (S (scope_attempts k w)));
                         Called (length (sockets w)) CallNew] ∧
  timers w' = delete n (timers w) ∧
  closed w' = false.
Proof.
  intros Hc Ht Hk w'.
  destruct (lookup_lt_is_Some_2 _ _ Hk) as [sc Hsc].
  split; [by apply (fire_wires n k delay)|].
  unfold w', fire, operation_attempt. js_unfold. rewrite Ht.
  cbv beta iota. unfold set_operation. js_unfold.
  set (w1 := with_scopes _ (with_timers _ w)).
  assert (Ha : scope_attempts k w1 = S (scope_attempts k w)).
  { unfold scope_attempts, w1. simpl.
    by rewrite list_lookup_alter_eq, Hsc. }
  destruct (attempt_fn_open k (scope_attempts k w1) w1 Hc)
    as (w2 & -> & Hthis & Hs & Hscs & Htm & _ & Htr).
  cbn [snd]. split; [by rewrite Hthis|].
  split. { unfold scope_attempts at 1. rewrite Hscs. exact Ha. }
  split. { unfold budget, scope_timeouts. rewrite Hscs. unfold w1. simpl.
    by rewrite list_lookup_alter_eq, Hsc. }
  split; [by rewrite Htr, Ha|]. split; [by rewrite Htm|].
  unfold closed. by rewrite Hthis.
Qed.

(** *** Events and the callbacks they reach *)

(** An event delivered to a socket runs the callback assigned to its slot,
    after the native state has moved. *)
Lemma deliver_slot (i k : nat) (ev : SocketEvent) (s : WebSocket) (w : World) :
  sockets w !! i = Some s →
  handler_slot ev s = Some k →
  deliver i ev w =
    handler k ev
      (with_sockets (alter (λ s, set_native (native_event ev (native s)) s) i) w).
Proof.
  intros Hs Hk. unfold deliver. js_unfold. cbv beta iota.
  cbn [sockets with_sockets].
  rewrite list_lookup_alter_eq, Hs. simpl.
  replace (handler_slot ev (set_native (native_event ev (native s)) s))
    with (handler_slot ev s) by by destruct ev.
  by rewrite Hk.
Qed.

(** ** Listeners inside an emission *)

(** What [send] leaves alone. *)
Lemma send_keeps (message : JsValue) (w : World) :
  let w' := exec (send message) w in
  this w' = this w ∧
  scopes w' = scopes w ∧
  timers w' = timers w ∧
  message_listeners w' = message_listeners w ∧
  emitted w' = emitted w ∧
  connects w' = connects w ∧
  length (sockets w') = length (sockets w) ∧
  (∀ j ev, sockets w' !! j ≫= handler_slot ev
           = sockets w !! j ≫= handler_slot ev).
Proof.
  cbv zeta. unfold send, stringify, deref_ws, ws_send, logger. js_unfold.
  destruct (closed w); [done|]. cbv beta iota.
  destruct (_ws (this w)) as [i|];
    [|cbn [snd]; repeat split; (done || trace_solve)].
  destruct (JSON_stringify message) as [e|data];
    [cbn [snd]; repeat split; (done || trace_solve)|].
  cbv beta iota.
  destruct (sockets w !! i) as [s|] eqn:Hs;
    [|cbn [snd]; repeat split; (done || trace_solve)].
  destruct (native_send (native s) data) as [e|n]; cbn [snd].
  { repeat split; (done || trace_solve). }
  split; [done|]. split; [done|]. split; [done|]. split; [done|].
  split; [trace_solve|]. split; [trace_solve|].
  split; [by simpl; rewrite length_insert|].
  intros j ev. simpl. rewrite list_lookup_insert.
  case_decide as Hij; [|done]. destruct Hij as [-> _].
  rewrite Hs. by destruct ev.
Qed.

(** [send] returns a promise on every path: it never throws. *)
Lemma send_returns (message : JsValue) (w : World) :
  ∃ p, send message w = (Normal p, exec (send message) w).
Proof.
  unfold send, stringify, deref_ws, ws_send, logger. js_unfold.
  destruct (closed w); [by eexists|]. cbv beta iota.
  destruct (_ws (this w)) as [i|]; [|by eexists].
  destruct (JSON_stringify message) as [e|data]; [by eexists|]. cbv beta iota.
  destruct (sockets w !! i) as [s|]; [|by eexists].
  destruct (native_send (native s) data); by eexists.
Qed.

(** [n] debug lines of [close()] added to the log. *)
Lemma iter_log_closed (n : nat) (w : World) :
  let w' := Nat.iter n (record (Logged LDebug log_close)) w in
  this w' = this w ∧ sockets w' = sockets w ∧ scopes w' = scopes w ∧
  timers w' = timers w ∧ message_listeners w' = message_listeners w ∧
  trace w' = trace w ++ replicate n (Logged LDebug log_close).
Proof.
  induction n as [|n IH]; [simpl; by rewrite app_nil_r|].
  destruct IH as (Ht & Hs & Hsc & Htm & Hl & Htr). cbv zeta in *.
  change (Nat.iter (S n) (record (Logged LDebug log_close)) w)
    with (record (Logged LDebug log_close)
            (Nat.iter n (record (Logged LDebug log_close)) w)).
  cbn [record this sockets scopes timers message_listeners trace].
  repeat split; try done. rewrite Htr, <- app_assoc. f_equal.
  replace (S n) with (n + 1)%nat by lia. by rewrite replicate_add.
Qed.

Lemma iter_log_swap (n : nat) (w : World) :
  Nat.iter n (record (Logged LDebug log_close)) (record (Logged LDebug log_close) w)
  = record (Logged LDebug log_close)
      (Nat.iter n (record (Logged LDebug log_close)) w).
Proof. induction n as [|n IH]; simpl; [done|]. by rewrite IH. Qed.

(** On a closed transport a listener's [send] is rejected at the guard and
    its [close] returns at the guard: the statements of the listeners add
    the debug lines of their [close] calls to the log and nothing else,
    up to the first [throw]. *)
Lemma react_all_closed (rs : list Reaction) (w : World) :
  closed w = true →
  react_all close rs w =
    (match first_throw rs with Some e => Throw e | None => Normal tt end,
     Nat.iter (closes_before_throw rs) (record (Logged LDebug log_close)) w).
Proof.
  revert w. induction rs as [|r rs IH]; intros w Hc; [done|].
  destruct r as [m| |e]; simpl.
  - unfold mbind at 1, JS_bind at 1. unfold mbind at 1, JS_bind at 1.
    rewrite send_closed by done. cbn. by apply IH.
  - unfold mbind at 1, JS_bind at 1. rewrite close_closed by done.
    rewrite (IH (record (Logged LDebug log_close) w)) by done.
    by rewrite iter_log_swap.
  - done.
Qed.

Lemma close_L_closed (L : Listeners) (w : World) :
  closed w = true → close_L L w = close w.
Proof.
  intros Hc. rewrite close_closed by done.
  unfold close_L, close_with, logger. js_unfold.
  replace (closed (record (Logged LDebug log_close) w)) with true by done.
  done.
Qed.

Lemma react_all_closed_ext (L : Listeners) (rs : list Reaction) (w : World) :
  closed w = true → react_all (close_L L) rs w = react_all close rs w.
Proof.
  revert w. induction rs as [|r rs IH]; intros w Hc; [done|].
  destruct r as [m| |e]; simpl.
  - unfold mbind at 1 3, JS_bind at 1 3. unfold mbind at 1 2, JS_bind at 1 2.
    rewrite send_closed by done. cbn. by apply IH.
  - unfold mbind at 1 2, JS_bind at 1 2.
    rewrite close_L_closed, close_closed by done. by apply IH.
  - done.
Qed.

(** [close] with listeners is the body of [close] over the emission with
    listeners: the stratification of [close_L] loses nothing. *)
Lemma close_L_fixpoint (L : Listeners) (w : World) :
  close_L L w = close_with (emit_L L EvClose) w.
Proof.
  unfold close_L, close_with, emit_L, emit_with, logger, set_closed, emit.
  js_unfold.
  destruct (closed (record (Logged LDebug log_close) w)); [done|].
  cbv beta iota. by rewrite react_all_closed_ext.
Qed.

(** The world in which the listeners of [close] run. *)
Lemma close_L_open (L : Listeners) (w : World) :
  closed w = false →
  let marked :=
    record (Emitted EvClose)
      (with_this (with_closed true) (record (Logged LDebug log_close) w)) in
  let heard :=
    Nat.iter (closes_before_throw (L EvClose))
             (record (Logged LDebug log_close)) marked in
  close_L L w =
    match first_throw (L EvClose) with
    | Some e => (Throw e, heard)
    | None => try_catch close_try close_catch heard
    end.
Proof.
  intros Hc marked heard.
  unfold close_L, close_with, emit_with, logger, set_closed, emit. js_unfold.
  replace (closed (record (Logged LDebug log_close) w)) with false by done.
  cbv beta iota. fold marked.
  rewrite (react_all_closed (L EvClose) marked eq_refl). fold heard.
  by destruct (first_throw (L EvClose)).
Qed.

(** The [try] and [catch] of [close] keep scopes, timers and listeners. *)
Lemma teardown_keeps (m : World) :
  let w' := snd (try_catch close_try close_catch m) in
  scopes w' = scopes m ∧ timers w' = timers m ∧
  message_listeners w' = message_listeners m.
Proof.
  cbv zeta. unfold try_catch, close_catch, logger, modify.
  destruct (_ws (this m)) as [i|] eqn:Hws.
  - destruct (sockets m !! i) as [s|] eqn:Hs.
    + rewrite (close_try_current m i s Hws Hs).
      by destruct (native_close (native s)).
    + unfold close_try, deref_ws, assign_onopen, assign_onclose,
        assign_onerror, assign_onmessage, ws_close.
      js_unfold.
      repeat first [rewrite Hws | progress cbv beta iota zeta
                   | progress cbn [this with_sockets sockets]].
      by rewrite !list_lookup_alter_eq, Hs.
  - unfold close_try, deref_ws. js_unfold. by rewrite Hws.
Qed.

(** Whatever the listeners do, [close] leaves the transport closed, with
    the socket reference, the URL, the options, the scopes, the timers and
    the number of sockets it found, and with one more [close] event if it
    was not closed before. *)
Lemma close_L_frame (L : Listeners) (w : World) :
  let w' := exec (close_L L) w in
  closed w' = true ∧
  this w' = with_closed true (this w) ∧
  scopes w' = scopes w ∧
  timers w' = timers w ∧
  message_listeners w' = message_listeners w ∧
  length (sockets w') = length (sockets w) ∧
  connects w' = connects w ∧
  emitted w' = emitted w ++ (if closed w then [] else [EvClose]).
Proof.
  cbv zeta. destruct (closed w) eqn:Hc.
  { unfold exec. rewrite close_L_closed, close_closed by done. cbn [snd].
    split; [done|]. split.
    { cbn [record this]. unfold closed in Hc. destruct (this w).
      simpl in *. by rewrite Hc. }
    repeat split; try done; trace_solve. }
  unfold exec. rewrite (close_L_open L w Hc).
  set (marked := record (Emitted EvClose) _).
  set (n := closes_before_throw (L EvClose)).
  destruct (iter_log_closed n marked) as (Ht & Hs & Hsc & Htm & Hl & Htr).
  set (heard := Nat.iter n (record (Logged LDebug log_close)) marked) in *.
  assert (Hem : emitted heard = emitted w ++ [EvClose]).
  { unfold emitted. rewrite Htr, omap_app.
    assert (Hlog : omap (λ e, match e with Emitted ev => Some ev | _ => None end)
                     (replicate n (Logged LDebug log_close)) = []).
    { clear. induction n; simpl; auto. }
    rewrite Hlog, app_nil_r. unfold marked. simpl.
    by rewrite !omap_app, app_nil_r. }
  assert (Hcn : connects heard = connects w).
  { unfold connects. rewrite Htr, omap_app.
    assert (Hlog : omap (λ e, match e with Called i CallNew => Some i | _ => None end)
                     (replicate n (Logged LDebug log_close)) = []).
    { clear. induction n; simpl; auto. }
    rewrite Hlog, app_nil_r. unfold marked. simpl.
    by rewrite !omap_app, !app_nil_r. }
  destruct (first_throw (L EvClose)) as [e|]; cbn [snd].
  - split; [by unfold closed; rewrite Ht|]. split; [by rewrite Ht|].
    split; [by rewrite Hsc|]. split; [by rewrite Htm|]. split; [by rewrite Hl|].
    split; [by rewrite Hs|]. done.
  - destruct (teardown_keeps heard) as (Hsc' & Htm' & Hl').
    destruct (close_try_caught heard) as (w' & Hf & Ht' & Hlen' & He' & Hn').
    rewrite Hf in *. cbn [snd] in *.
    split; [by unfold closed; rewrite Ht', Ht|]. split; [by rewrite Ht', Ht|].
    split; [by rewrite Hsc', Hsc|]. split; [by rewrite Htm', Htm|].
    split; [by rewrite Hl', Hl|]. split; [by rewrite Hlen', Hs|].
    split; [by rewrite Hn'|]. by rewrite He'.
Qed.

(** What the listeners of an event can do to a transport, whatever they
    are: the URL, the options, the socket reference, the scopes, the timers
    and the number of sockets stay, no socket is constructed, a closed
    transport stays closed, and unless they close it nothing is emitted. *)
Lemma react_all_frame (L : Listeners) (rs : list Reaction) (w : World) :
  let w' := exec (react_all (close_L L) rs) w in
  _url (this w') = _url (this w) ∧
  _options (this w') = _options (this w) ∧
  _ws (this w') = _ws (this w) ∧
  scopes w' = scopes w ∧
  timers w' = timers w ∧
  message_listeners w' = message_listeners w ∧
  length (sockets w') = length (sockets w) ∧
  connects w' = connects w ∧
  (closed w = true → closed w' = true) ∧
  (closed w' = false → emitted w' = emitted w).
Proof.
  cbv zeta. revert w. induction rs as [|r rs IH]; intros w; [done|].
  assert (Hstep : ∀ (m : JS unit) w1,
    exec m w = w1 →
    exec (m;; react_all (close_L L) rs) w
    = (if fst (m w) is Normal _ then exec (react_all (close_L L) rs) w1 else w1)).
  { intros m w1 <-. unfold exec, mbind, JS_bind.
    by destruct (m w) as [[[]|e] w2]. }
  destruct r as [m| |e].
  - change (react_all (close_L L) (ReSend m :: rs))
      with ((send m;; mret tt);; react_all (close_L L) rs).
    destruct (send_keeps m w) as (Ht & Hsc & Htm & Hl & He & Hn & Hlen & _).
    set (w1 := exec (send m) w) in *.
    rewrite (Hstep (send m;; mret tt) w1).
    2:{ unfold w1, exec, mbind, JS_bind, mret, JS_ret.
        by destruct (send m w) as [[p|e] w2]. }
    destruct (IH w1) as (Hu' & Ho' & Hws' & Hsc' & Htm' & Hl' & Hlen' & Hn' & Hc' & He').
    assert (Hcl : closed w1 = closed w) by (unfold closed; by rewrite Ht).
    destruct (fst ((send m;; mret tt) w)).
    + rewrite Hu', Ho', Hws', Hsc', Htm', Hl', Hlen', Hn', Ht.
      repeat split; try done.
      * intros Hc. apply Hc'. by rewrite Hcl.
      * intros Hc. by rewrite He'.
    + rewrite Ht. repeat split; try done. intros Hc. by rewrite Hcl.
  - change (react_all (close_L L) (ReClose :: rs))
      with (close_L L;; react_all (close_L L) rs).
    destruct (close_L_frame L w) as (Hc1 & Ht & Hsc & Htm & Hl & Hlen & Hn & He).
    set (w1 := exec (close_L L) w) in *.
    rewrite (Hstep (close_L L) w1 eq_refl).
    destruct (IH w1) as (Hu' & Ho' & Hws' & Hsc' & Htm' & Hl' & Hlen' & Hn' & Hc' & He').
    destruct (fst (close_L L w)).
    + rewrite Hu', Ho', Hws', Hsc', Htm', Hl', Hlen', Hn', Ht.
      repeat split; try done.
      * intros _. by apply Hc'.
      * intros Hc. rewrite (Hc' Hc1) in Hc. done.
    + rewrite Ht. repeat split; try done. intros Hc. by rewrite Hc1 in Hc.
  - done.
Qed.

(** Listeners that only send leave the transport as open or closed as it
    was, return normally, emit nothing and reassign no callback. *)
Lemma react_all_sends (cl : JS unit) (rs : list Reaction) (w : World) :
  sends_only rs →
  ∃ w', react_all cl rs w = (Normal tt, w') ∧
    this w' = this w ∧
    scopes w' = scopes w ∧
    timers w' = timers w ∧
    message_listeners w' = message_listeners w ∧
    emitted w' = emitted w ∧
    connects w' = connects w ∧
    length (sockets w') = length (sockets w) ∧
    (∀ j ev, sockets w' !! j ≫= handler_slot ev
             = sockets w !! j ≫= handler_slot ev).
Proof.
  intros Hrs. revert w. induction Hrs as [|r rs [m ->] _ IH]; intros w.
  { by exists w. }
  destruct (send_keeps m w) as (Ht & Hsc & Htm & Hl & He & Hn & Hlen & Hslot).
  destruct (IH (exec (send m) w))
    as (w' & Hf & Ht' & Hsc' & Htm' & Hl' & He' & Hn' & Hlen' & Hslot').
  exists w'. split.
  { destruct (send_returns m w) as [p Hp].
    change (react_all cl (ReSend m :: rs))
      with ((send m;; mret tt);; react_all cl rs).
    unfold mbind at 1, JS_bind at 1. unfold mbind at 1, JS_bind at 1.
    rewrite Hp. exact Hf. }
  rewrite Ht', Hsc', Htm', Hl', He', Hn', Hlen'.
  repeat split; try done. intros j ev. by rewrite Hslot'.
Qed.

(** *** The model without listeners is the model with none *)

Lemma emit_L_silent (ev : PublicEvent) (w : World) :
  emit_L silent ev w = emit ev w.
Proof. done. Qed.

Lemma close_L_silent (w : World) : close_L silent w = close w.
Proof.
  unfold close_L, close_with, close, emit_with, emit, logger, set_closed.
  js_unfold. by destruct (closed (record (Logged LDebug log_close) w)).
Qed.

Lemma handler_L_silent (k : nat) (ev : SocketEvent) (w : World) :
  handler_L silent k ev w = handler k ev w.
Proof.
  destruct ev as [|event| |data]; simpl; [| |done|].
  - unfold onopen_handler_L, onopen_handler. js_unfold. by destruct (closed w).
  - unfold onclose_handler_L, onclose_handler, logger, emit_L, emit_with, emit,
      set_closed. js_unfold.
    destruct (closed w); [done|]. cbv beta iota.
    destruct (decide (code event ≠ 4000)); [|done].
    destruct (negb _); [|done].
    by destruct (operation_retry k true _) as [[[]|e] w'].
  - unfold onmessage_handler_L, onmessage_handler. js_unfold.
    destruct (closed w); [done|]. cbv beta iota.
    destruct (Message_parse data); [|done]. cbv beta iota.
    by destruct (decide (message_listeners w = 0%nat)).
Qed.

Lemma run_L_silent (acts : list Action) (w : World) :
  run_L silent acts w = run acts w.
Proof.
  revert w. induction acts as [|a acts IH]; intros w; [done|].
  change (run_L silent (a :: acts) w)
    with (run_L silent acts (exec (step_L silent a) w)).
  change (run (a :: acts) w) with (run acts (exec (step a) w)).
  rewrite IH. f_equal.
Qed.

(** *** close, with its listeners *)

(** C6, as the code has it: [close] on a transport that is not closed
    sets the flag, then emits [close], then runs the [try] block.  The
    listeners of [close] therefore find the transport closed, with its
    sockets untouched: a [send] of theirs is rejected without a socket
    call and a [close] of theirs returns at the guard, so all they add to
    the trace are the debug lines of their [close] calls.  If none of them
    throws, the [try] block runs after them: on the current socket the
    four callbacks end up null, the socket is asked to close, and an error
    it throws is logged and swallowed, so that [close] completes normally.
    If one of them throws, [close] throws that error to its caller and the
    [try] block does not run.  [close] fails in no other case. *)
Theorem close_with_listeners (L : Listeners) (w : World) :
  closed w = false →
  let marked :=
    record (Emitted EvClose)
      (with_this (with_closed true) (record (Logged LDebug log_close) w)) in
  let heard :=
    Nat.iter (closes_before_throw (L EvClose))
             (record (Logged LDebug log_close)) marked in
  closed marked = true ∧
  sockets marked = sockets w ∧
  trace marked = trace w ++ [Logged LDebug log_close; Emitted EvClose] ∧
  react_all (close_L L) (L EvClose) marked =
    (match first_throw (L EvClose) with
     | Some e => Throw e
     | None => Normal tt
     end, heard) ∧
  this heard = this marked ∧
  sockets heard = sockets w ∧
  trace heard = trace marked ++ replicate (closes_before_throw (L EvClose))
                                          (Logged LDebug log_close) ∧
  ((∃ e, fst (close_L L w) = Throw e) ↔ (∃ e, first_throw (L EvClose) = Some e)) ∧
  (∀ e, first_throw (L EvClose) = Some e → close_L L w = (Throw e, heard)) ∧
  (first_throw (L EvClose) = None →
     close_L L w = try_catch close_try close_catch heard ∧
     (∃ w', close_L L w = (Normal tt, w') ∧ closed w' = true ∧
            emitted w' = emitted w ++ [EvClose]) ∧
     ∀ i s, _ws (this w) = Some i → sockets w !! i = Some s →
       ∃ w', close_L L w = (Normal tt, w') ∧
         sockets w' !! i =
           Some (match native_close (native s) with
                 | inl _ => detached s
                 | inr n => set_native n (detached s)
                 end) ∧
         trace w' =
           trace heard ++ [Called i CallClose]
                       ++ match native_close (native s) with
                          | inl e => [Logged LError (log_close_error e)]
                          | inr _ => []
                          end).
Proof.
  intros Hc marked heard.
  destruct (iter_log_closed (closes_before_throw (L EvClose)) marked)
    as (Ht & Hs & _ & _ & _ & Htr). fold heard in Ht, Hs, Htr.
  pose proof (close_L_open L w Hc) as Hclose. cbv zeta in Hclose.
  fold marked in Hclose. fold heard in Hclose.
  split; [done|]. split; [done|].
  split; [by simpl; rewrite <- app_assoc|].
  split. { rewrite react_all_closed_ext by done. by apply react_all_closed. }
  split; [done|]. split; [done|]. split; [done|].
  assert (Hcaught : ∃ w', try_catch close_try close_catch heard = (Normal tt, w')
                          ∧ this w' = this heard ∧ emitted w' = emitted heard).
  { destruct (close_try_caught heard) as (w' & Hf & Hthis & _ & He & _).
    by exists w'. }
  split.
  { rewrite Hclose. destruct (first_throw (L EvClose)) as [e|].
    - split; intros _; by exists e.
    - destruct Hcaught as (w' & -> & _). split; intros [e He]; done. }
  split. { intros e He. by rewrite Hclose, He. }
  intros Hnone. rewrite Hclose, Hnone. split; [done|]. split.
  - destruct Hcaught as (w' & -> & Hthis & He). exists w'. split; [done|].
    split; [by unfold closed; rewrite Hthis, Ht|].
    rewrite He. unfold emitted. rewrite Htr, omap_app.
    assert (Hlog : omap (λ e, match e with Emitted ev => Some ev | _ => None end)
                     (replicate (closes_before_throw (L EvClose))
                        (Logged LDebug log_close)) = []).
    { clear. induction (closes_before_throw (L EvClose)); simpl; auto. }
    rewrite Hlog, app_nil_r. unfold marked. simpl.
    by rewrite !omap_app, app_nil_r.
  - intros i s Hws Hsi.
    assert (Hi : (i < length (sockets w))%nat) by eauto using lookup_lt_Some.
    assert (Hws' : _ws (this heard) = Some i) by by rewrite Ht.
    assert (Hsi' : sockets heard !! i = Some s) by by rewrite Hs.
    unfold try_catch. rewrite (close_try_current heard i s Hws' Hsi').
    destruct (native_close (native s)) as [e|n]; eexists;
      (split; [reflexivity|]); cbn [snd close_catch];
      unfold close_catch, logger, modify; simpl;
      rewrite Hs, (list_lookup_insert_eq _ _ _ Hi), <- ?app_assoc; done.
Qed.

(** *** The restart, with the listeners of [disconnected] *)

(** [_setWebSocket] on a closed transport opens a scope, stops its
    operation at the guard of the first attempt and constructs nothing. *)
Lemma setWebSocket_closed (w : World) :
  closed w = true →
  ∃ w', _setWebSocket w = (Normal tt, w') ∧
    this w' = this w ∧
    sockets w' = sockets w ∧
    timers w' = timers w ∧
    trace w' = trace w ∧
    length (scopes w') = S (length (scopes w)) ∧
    budget (length (scopes w)) w' = 0%nat.
Proof.
  intros Hc. unfold _setWebSocket, new_scope, operation_attempt, attempt_fn,
    operation_stop, set_operation. js_unfold. cbv beta iota.
  replace (closed (with_scopes _ w)) with true by done.
  eexists. split; [reflexivity|]. simpl.
  rewrite length_alter, length_app. simpl.
  repeat split; try done; [lia|].
  unfold budget, scope_timeouts. simpl. by rewrite alter_snoc, lookup_snoc.
Qed.

(** The restart branch of [onclose] with listeners: stop, announce, let
    the listeners run, start from scratch unless one of them threw. *)
Lemma onclose_restart_L
    (L : Listeners) (k : nat) (event : CloseEvent) (w : World) :
  closed w = false →
  code event ≠ 4000 →
  scope_wasConnected k w = true →
  let announced :=
    record (Emitted EvDisconnected)
      (exec (operation_stop k)
         (record (Logged LWarn (log_socket_close event)) w)) in
  let heard := react_all (close_L L) (L EvDisconnected) announced in
  onclose_handler_L L k event w =
    match fst heard with
    | Normal _ => _setWebSocket (snd heard)
    | Throw e => (Throw e, snd heard)
    end.
Proof.
  intros Hc Hcode Hwc. cbv zeta.
  unfold onclose_handler_L, logger, emit_L, emit_with, emit. js_unfold.
  rewrite Hc. cbv beta iota.
  destruct (decide (code event ≠ 4000)) as [_|]; [|done].
  replace (scope_wasConnected k (record (Logged LWarn (log_socket_close event)) w))
    with true by done.
  change (negb true) with false. cbv beta iota.
  unfold operation_stop, set_operation. js_unfold. cbv beta iota. cbn [snd].
  match goal with |- context [react_all (close_L L) (L EvDisconnected) ?a] =>
    by destruct (react_all (close_L L) (L EvDisconnected) a) as [[[]|e] w1] end.
Qed.

(** C3, as the code has it: a close callback with a code other than 4000
    that reaches a transport that is not closed, in a scope whose socket
    had opened, stops the operation of that scope and emits exactly one
    [disconnected] event; the listeners of that event run next, and
    [_setWebSocket] runs after them unless one of them throws.  If they
    return and the transport is still not closed (as when they only send),
    the callback completes normally with a new scope whose operation holds
    the full configured budget and a newly constructed current socket wired
    to it, [closed] stays false and the callback has emitted nothing but
    the [disconnected].  If a listener has closed the transport, the
    first attempt of the new scope stops at its guard: no socket is
    constructed and the socket reference stays.  If a listener throws, the
    callback throws and [_setWebSocket] does not run. *)
Theorem lost_connection_with_listeners
    (L : Listeners) (k : nat) (event : CloseEvent) (w : World) :
  closed w = false →
  code event ≠ 4000 →
  scope_wasConnected k w = true →
  let announced :=
    record (Emitted EvDisconnected)
      (exec (operation_stop k)
         (record (Logged LWarn (log_socket_close event)) w)) in
  let heard := react_all (close_L L) (L EvDisconnected) announced in
  let k' := length (scopes w) in
  let i' := length (sockets w) in
  budget k announced = 0%nat ∧
  emitted announced = emitted w ++ [EvDisconnected] ∧
  closed announced = false ∧
  onclose_handler_L L k event w =
    match fst heard with
    | Normal _ => _setWebSocket (snd heard)
    | Throw e => (Throw e, snd heard)
    end ∧
  (sends_only (L EvDisconnected) →
     fst heard = Normal tt ∧ closed (snd heard) = false) ∧
  (fst heard = Normal tt → closed (snd heard) = false →
     ∃ w', onclose_handler_L L k event w = (Normal tt, w') ∧
       closed w' = false ∧
       emitted w' = emitted w ++ [EvDisconnected] ∧
       budget k w' = 0%nat ∧
       length (scopes w') = S k' ∧
       budget k' w' = configured_retries w ∧
       scope_timeouts k' w' = retry_timeouts (policy w) ∧
       scope_attempts k' w' = 1%nat ∧
       scope_wasConnected k' w' = false ∧
       _ws (this w') = Some i' ∧
       (∃ s, sockets w' !! i' = Some s ∧
             onopen s = Some k' ∧ onclose s = Some k' ∧
             onerror s = Some k' ∧ onmessage s = Some k') ∧
       connects w' = connects w ++ [i'] ∧
       timers w' = timers w) ∧
  (fst heard = Normal tt → closed (snd heard) = true →
     ∃ w', onclose_handler_L L k event w = (Normal tt, w') ∧
       closed w' = true ∧
       connects w' = connects w ∧
       length (sockets w') = length (sockets w) ∧
       _ws (this w') = _ws (this w) ∧
       budget k' w' = 0%nat ∧
       timers w' = timers w) ∧
  (∀ e, fst heard = Throw e →
     onclose_handler_L L k event w = (Throw e, snd heard) ∧
     connects (snd heard) = connects w ∧
     length (sockets (snd heard)) = length (sockets w) ∧
     _ws (this (snd heard)) = _ws (this w) ∧
     length (scopes (snd heard)) = length (scopes w)).
Proof.
  intros Hc Hcode Hwc announced heard k' i'.
  pose proof (onclose_restart_L L k event w Hc Hcode Hwc) as Hrun.
  cbv zeta in Hrun. fold announced in Hrun. fold heard in Hrun.
  assert (Hk : (k < length (scopes w))%nat).
  { unfold scope_wasConnected in Hwc. apply lookup_lt_is_Some.
    by destruct (scopes w !! k). }
  assert (Hsca : scopes announced
                 = alter (λ sc, {| options := options sc;
                                   operation := {| _timeouts := [];
                                                   _attempts := _attempts (operation sc) |};
                                   wasConnected := wasConnected sc |}) k (scopes w)).
  { done. }
  assert (Hba : budget k announced = 0%nat).
  { unfold budget, scope_timeouts. rewrite Hsca, list_lookup_alter_eq.
    by destruct (scopes w !! k). }
  assert (Hea : emitted announced = emitted w ++ [EvDisconnected]).
  { unfold announced, operation_stop, set_operation. js_unfold. trace_solve. }
  assert (Hna : connects announced = connects w).
  { unfold announced, operation_stop, set_operation. js_unfold. trace_solve. }
  assert (Hla : length (scopes announced) = length (scopes w)).
  { rewrite Hsca. apply length_alter. }
  destruct (react_all_frame L (L EvDisconnected) announced)
    as (Hu & Ho & Hws & Hsc & Htm & Hl & Hlen & Hn & Hcc & He).
  unfold exec in Hu, Ho, Hws, Hsc, Htm, Hl, Hlen, Hn, Hcc, He.
  fold heard in Hu, Ho, Hws, Hsc, Htm, Hl, Hlen, Hn, Hcc, He.
  split; [done|]. split; [done|]. split; [done|]. split; [done|].
  split.
  { intros Hsends.
    destruct (react_all_sends (close_L L) (L EvDisconnected) announced Hsends)
      as (w1 & Hf & Ht & _). fold heard in Hf. rewrite Hf. cbn [fst snd].
    split; [done|]. unfold closed. by rewrite Ht. }
  split.
  { intros Hnormal Hopen. rewrite Hrun, Hnormal.
    destruct (setWebSocket_open (snd heard) Hopen)
      as (w' & -> & Hthis & Hs & Hscs & Htm' & _ & Htr).
    assert (Hk' : scopes w' !! k' = Some (fresh_scope (snd heard))).
    { rewrite Hscs, Hsc. unfold k'. rewrite <- Hla. apply lookup_snoc. }
    assert (Hpol : policy (snd heard) = policy w).
    { unfold policy. by rewrite Ho. }
    exists w'. split; [done|].
    split; [by unfold closed; rewrite Hthis|].
    split. { unfold emitted at 1. rewrite Htr, omap_app. simpl.
      rewrite app_nil_r. fold (emitted (snd heard)). by rewrite (He Hopen). }
    split. { unfold budget, scope_timeouts. rewrite Hscs, Hsc.
      rewrite lookup_app_l by (rewrite Hla; lia).
      fold (scope_timeouts k announced). exact Hba. }
    split. { rewrite Hscs, length_app, Hsc, Hla. simpl. unfold k'. lia. }
    split. { unfold budget, scope_timeouts. rewrite Hk'. simpl.
      rewrite retry_timeouts_length. by rewrite Hpol. }
    split. { unfold scope_timeouts. rewrite Hk'. simpl. by rewrite Hpol. }
    split. { unfold scope_attempts. by rewrite Hk'. }
    split. { unfold scope_wasConnected. by rewrite Hk'. }
    split. { by rewrite Hthis, Hlen. }
    split. { eexists. split.
      - rewrite Hs. unfold i'. replace (length (sockets w))
          with (length (sockets (snd heard))) by by rewrite Hlen.
        apply lookup_snoc.
      - unfold attempt_socket. cbn [onopen onclose onerror onmessage].
        rewrite Hsc, Hla. done. }
    split. { unfold connects at 1. rewrite Htr, omap_app. simpl.
      fold (connects (snd heard)). by rewrite Hn, Hna, Hlen. }
    by rewrite Htm', Htm. }
  split.
  { intros Hnormal Hclosed. rewrite Hrun, Hnormal.
    destruct (setWebSocket_closed (snd heard) Hclosed)
      as (w' & -> & Hthis & Hs & Htm' & Htr & Hlsc & Hb).
    exists w'. split; [done|].
    split; [by unfold closed; rewrite Hthis|].
    split; [by unfold connects; rewrite Htr; fold (connects (snd heard));
            rewrite Hn, Hna|].
    split; [by rewrite Hs, Hlen|]. split; [by rewrite Hthis, Hws|].
    split; [by unfold k'; rewrite <- Hla, <- Hsc|].
    by rewrite Htm', Htm. }
  intros e Hthrow. rewrite Hrun, Hthrow. split; [done|].
  split; [by rewrite Hn, Hna|]. split; [by rewrite Hlen|].
  split; [by rewrite Hws|]. by rewrite Hsc, Hla.
Qed.

(** *** The error callback *)

(** X11: an error event alone never drives recovery.  Delivered to any
    socket of any transport, with any listeners, it leaves the fields of
    the transport, the scopes, the timers and the emitted events as they
    were and constructs no socket.  The transport logs the error, once,
    exactly when it is not closed and the socket still has its error
    callback; otherwise it logs nothing. *)
Theorem error_event_only_logs (L : Listeners) (i : nat) (w : World) :
  let w' := exec (deliver_L L i SockError) w in
  deliver_L L i SockError w = deliver i SockError w ∧
  this w' = this w ∧
  scopes w' = scopes w ∧
  timers w' = timers w ∧
  emitted w' = emitted w ∧
  connects w' = connects w ∧
  length (sockets w') = length (sockets w) ∧
  trace w' =
    (if closed w then trace w
     else match sockets w !! i ≫= onerror with
          | Some _ => trace w ++ [Logged LError log_socket_error]
          | None => trace w
          end).
Proof.
  cbv zeta. split; [done|].
  unfold deliver_L. js_unfold. cbv beta iota. cbn [sockets with_sockets].
  rewrite list_lookup_alter_eq.
  set (w1 := with_sockets _ w).
  assert (Hl : length (sockets w1) = length (sockets w)).
  { unfold w1. simpl. by rewrite length_alter. }
  destruct (sockets w !! i) as [s|]; cbn [fmap option_fmap option_map
    option_bind]; [|cbn [snd]; destruct (closed w); by repeat split].
  replace (handler_slot SockError (set_native (native_event SockError (native s)) s))
    with (onerror s) by done.
  destruct (onerror s) as [k|]; cbn [snd];
    [|destruct (closed w); by repeat split].
  cbn [handler_L]. unfold onerror_handler, logger. js_unfold.
  replace (closed w1) with (closed w) by done.
  destruct (closed w); cbn [snd]; repeat split; first [done | trace_solve].
Qed.

(** *** The constructor and what the libraries refuse *)

Lemma constructor_checked_retry_refused
    (url : string) (options : option Options) (e : JsError) :
  retry_refuses (default DEFAULT_RETRY_OPTIONS
                   (retry (default no_options options))) = Some e →
  ∃ w, constructor_checked url options = (Throw e, w) ∧
    sockets w = [] ∧ scopes w = [] ∧ _ws (this w) = None ∧
    emitted w = [] ∧ connects w = [].
Proof.
  intros He. unfold constructor_checked, _setWebSocket_checked. js_unfold.
  cbv beta iota.
  change (_options (this (allocated url options)))
    with (default no_options options).
  rewrite He. by eexists.
Qed.

Lemma constructor_checked_socket_refused
    (url : string) (options : option Options) (e : JsError) :
  let o := default no_options options in
  retry_refuses (default DEFAULT_RETRY_OPTIONS (retry o)) = None →
  W3CWebSocket_refuses url "" (origin o) (headers o)
                       (requestOptions o) (clientConfig o) = Some e →
  ∃ w, constructor_checked url options = (Throw e, w) ∧
    sockets w = [] ∧ _ws (this w) = None ∧
    emitted w = [] ∧ connects w = [].
Proof.
  intros o Hp He. unfold constructor_checked, _setWebSocket_checked. js_unfold.
  cbv beta iota.
  change (_options (this (allocated url options))) with o.
  rewrite Hp. unfold new_scope, attempt_fn_checked, new_W3CWebSocket_checked,
    logger. js_unfold. cbv beta iota.
  cbn [closed this allocated _closed with_scopes record].
  cbn -[W3CWebSocket_refuses]. fold o. rewrite He. by eexists.
Qed.

(** On arguments that both libraries accept, the constructor is
    [constructor]. *)
Lemma constructor_checked_accepted (url : string) (options : option Options) :
  let o := default no_options options in
  retry_refuses (default DEFAULT_RETRY_OPTIONS (retry o)) = None →
  W3CWebSocket_refuses url "" (origin o) (headers o)
                       (requestOptions o) (clientConfig o) = None →
  constructor_checked url options = constructor url options.
Proof.
  intros o Hp Hok.
  unfold constructor_checked, _setWebSocket_checked, constructor,
    _setWebSocket, operation_attempt. js_unfold. cbv beta iota.
  change (_options (this (allocated url options))) with o.
  rewrite Hp. unfold new_scope, attempt_fn_checked, attempt_fn,
    new_W3CWebSocket_checked, logger. js_unfold. cbv beta iota.
  cbn [closed this allocated _closed with_scopes record].
  cbn -[W3CWebSocket_refuses W3CWebSocket alter]. fold o.
  by rewrite Hok.
Qed.

(** A constructor that returns has run [constructor]. *)
Lemma constructor_checked_returned (url : string) (options : option Options) :
  fst (constructor_checked url options) = Normal tt →
  constructor_checked url options = constructor url options.
Proof.
  intros Hf. set (o := default no_options options).
  destruct (retry_refuses (default DEFAULT_RETRY_OPTIONS (retry o)))
    as [e|] eqn:Hp.
  { destruct (constructor_checked_retry_refused url options e Hp)
      as (w & Hw & _). by rewrite Hw in Hf. }
  destruct (W3CWebSocket_refuses url "" (origin o) (headers o)
              (requestOptions o) (clientConfig o)) as [e|] eqn:Hok.
  { destruct (constructor_checked_socket_refused url options e Hp Hok)
      as (w & Hw & _). by rewrite Hw in Hf. }
  by apply constructor_checked_accepted.
Qed.

(** On a transport whose policy and socket arguments are accepted,
    [_setWebSocket] is the function with the checks. *)
Lemma setWebSocket_checked_accepted (w : World) :
  let o := _options (this w) in
  retry_refuses (policy w) = None →
  W3CWebSocket_refuses (_url (this w)) "" (origin o) (headers o)
                       (requestOptions o) (clientConfig o) = None →
  _setWebSocket_checked w = _setWebSocket w.
Proof.
  intros o Hp Hok.
  unfold _setWebSocket_checked, _setWebSocket, operation_attempt. js_unfold.
  cbv beta iota. fold o. fold o in Hp. unfold policy in Hp. fold o in Hp.
  rewrite Hp. unfold new_scope. cbv beta iota.
  set (w1 := with_scopes _ w).
  unfold attempt_fn_checked, attempt_fn, new_W3CWebSocket_checked, logger.
  js_unfold. cbv beta iota.
  replace (closed w1) with (closed w) by done.
  destruct (closed w); [done|].
  replace (_url (this (record (Logged LDebug
             (log_attempt (scope_attempts (length (scopes w)) w1))) w1)))
    with (_url (this w)) by done.
  replace (scope_options (length (scopes w)) (record (Logged LDebug
             (log_attempt (scope_attempts (length (scopes w)) w1))) w1))
    with o.
  2:{ unfold scope_options, w1. simpl. by rewrite lookup_snoc. }
  by rewrite Hok.
Qed.

(** What the libraries accepted in the constructor they accept in every
    restart: the URL, the options and the policy do not change. *)
Lemma restart_accepted
    (url : string) (options : option Options) (acts : list Action) :
  fst (constructor_checked url options) = Normal tt →
  let w := run acts (snd (constructor_checked url options)) in
  _setWebSocket_checked w = _setWebSocket w.
Proof.
  intros Hf w. set (o := default no_options options).
  pose proof (constructor_checked_returned url options Hf) as Heq.
  destruct (constructor_world url options) as (w0 & Hw0 & Hthis & _).
  assert (Hw : w = run acts w0) by (unfold w; by rewrite Heq, Hw0).
  destruct (run_evolves acts w0) as (Hu & Ho & _).
  rewrite <- Hw, Hthis in Hu, Ho. cbn [_url _options] in Hu, Ho.
  destruct (retry_refuses (default DEFAULT_RETRY_OPTIONS (retry o)))
    as [e|] eqn:Hp.
  { destruct (constructor_checked_retry_refused url options e Hp)
      as (w' & Hw' & _). by rewrite Hw' in Hf. }
  destruct (W3CWebSocket_refuses url "" (origin o) (headers o)
              (requestOptions o) (clientConfig o)) as [e|] eqn:Hok.
  { destruct (constructor_checked_socket_refused url options e Hp Hok)
      as (w' & Hw' & _). by rewrite Hw' in Hf. }
  apply setWebSocket_checked_accepted.
  - unfold policy. by rewrite Ho.
  - by rewrite Hu, Ho.
Qed.

(** X1: the constructor throws, leaving no transport, when the retry
    policy has [minTimeout] above [maxTimeout] (the error of the retry
    library, before any socket is constructed) and when the socket library
    refuses the arguments of the first socket; in both cases no socket is
    in the heap and nothing is emitted.  On all other arguments, and only
    on those, it completes normally and leaves a transport that is not
    closed, holds the URL and the options given (the empty options when
    none are given), has one scope with a full retry operation and one
    socket, constructed with that URL, the empty protocol and the four
    connection options, current and wired to that scope; nothing is
    scheduled and nothing is emitted. *)
Theorem constructor_checked_outcomes (url : string) (options : option Options) :
  let o := default no_options options in
  let p := default DEFAULT_RETRY_OPTIONS (retry o) in
  let refused := W3CWebSocket_refuses url "" (origin o) (headers o)
                                      (requestOptions o) (clientConfig o) in
  (is_Some (retry_refuses p) ↔
     ∃ cap, maxTimeout p = Some cap ∧ cap < default 1000 (minTimeout p)) ∧
  (fst (constructor_checked url options) = Normal tt ↔
     retry_refuses p = None ∧ refused = None) ∧
  (∀ e, retry_refuses p = Some e →
     ∃ w, constructor_checked url options = (Throw e, w) ∧
       sockets w = [] ∧ scopes w = [] ∧ _ws (this w) = None ∧
       emitted w = [] ∧ connects w = []) ∧
  (retry_refuses p = None → ∀ e, refused = Some e →
     ∃ w, constructor_checked url options = (Throw e, w) ∧
       sockets w = [] ∧ _ws (this w) = None ∧
       emitted w = [] ∧ connects w = []) ∧
  (retry_refuses p = None → refused = None →
     constructor_checked url options = constructor url options ∧
     ∃ w, constructor_checked url options = (Normal tt, w) ∧
       this w = {| _url := url; _options := o; _ws := Some 0%nat;
                   _closed := false |} ∧
       sockets w = [{| native := W3CWebSocket url "" (origin o) (headers o)
                                              (requestOptions o) (clientConfig o);
                       onopen := Some 0%nat; onclose := Some 0%nat;
                       onerror := Some 0%nat; onmessage := Some 0%nat |}] ∧
       scopes w = [{| options := o; operation := retry_operation p;
                      wasConnected := false |}] ∧
       budget 0 w = default 10%nat (retries p) ∧
       timers w = [] ∧
       message_listeners w = 0%nat ∧
       emitted w = [] ∧
       trace w = [Logged LDebug (log_constructor url options);
                  Logged LDebug (log_attempt 1); Called 0 CallNew]).
Proof.
  intros o p refused.
  assert (Hlast : retry_refuses p = None → refused = None →
    constructor_checked url options = constructor url options ∧
    fst (constructor_checked url options) = Normal tt).
  { intros Hp Hok.
    pose proof (constructor_checked_accepted url options Hp Hok) as Heq.
    split; [done|]. rewrite Heq.
    destruct (constructor_world url options) as (w & -> & _). done. }
  split.
  { unfold retry_refuses. destruct (maxTimeout p) as [cap|].
    - case_decide as Hcap.
      + split; [intros _; by exists cap|by eexists].
      + split; [by intros [e He]|]. intros (cap' & [= <-] & Hlt). lia.
    - split; [by intros [e He]|]. by intros (cap & Hcap & _). }
  split.
  { split; [|intros [Hp Hok]; by apply Hlast].
    intros Hf. destruct (retry_refuses p) as [e|] eqn:Hp.
    { destruct (constructor_checked_retry_refused url options e Hp)
        as (w & Hw & _). by rewrite Hw in Hf. }
    destruct refused as [e|] eqn:Hok; [|done].
    destruct (constructor_checked_socket_refused url options e Hp Hok)
      as (w & Hw & _). by rewrite Hw in Hf. }
  split; [intros e He; by apply constructor_checked_retry_refused|].
  split; [intros Hp e He; by apply constructor_checked_socket_refused|].
  intros Hp Hok. destruct (Hlast Hp Hok) as [Heq _].
  split; [done|]. rewrite Heq. apply constructor_world.
Qed.

(** *** Open, then a drop, with listeners that only send *)

Lemma slot_lookup (l : list WebSocket) (i k : nat) (ev : SocketEvent) :
  l !! i ≫= handler_slot ev = Some k ↔
  ∃ s, l !! i = Some s ∧ handler_slot ev s = Some k.
Proof. apply bind_Some. Qed.

(** An event delivered to a socket runs the callback in its slot. *)
Lemma deliver_L_slot (L : Listeners) (i k : nat) (ev : SocketEvent) (w : World) :
  sockets w !! i ≫= handler_slot ev = Some k →
  deliver_L L i ev w =
    handler_L L k ev
      (with_sockets (alter (λ s, set_native (native_event ev (native s)) s) i) w).
Proof.
  intros Hk. apply slot_lookup in Hk as (s & Hs & Hk).
  unfold deliver_L. js_unfold. cbv beta iota. cbn [sockets with_sockets].
  rewrite list_lookup_alter_eq, Hs. simpl.
  replace (handler_slot ev (set_native (native_event ev (native s)) s))
    with (handler_slot ev s) by by destruct ev.
  by rewrite Hk.
Qed.

(** The native state of a socket moves without its callbacks. *)
Lemma native_event_slots (i j : nat) (ev ev' : SocketEvent) (l : list WebSocket) :
  alter (λ s, set_native (native_event ev (native s)) s) i l !! j
    ≫= handler_slot ev'
  = l !! j ≫= handler_slot ev'.
Proof.
  rewrite list_lookup_alter. case_decide as Hij; [subst j|done].
  destruct (l !! i); [|done]. by destruct ev'.
Qed.

(** The open callback when the listeners of [open] only send. *)
Lemma open_after_sends (L : Listeners) (k : nat) (w : World) :
  closed w = false →
  (k < length (scopes w))%nat →
  sends_only (L EvOpen) →
  ∃ w1, onopen_handler_L L k w = (Normal tt, w1) ∧
    this w1 = this w ∧
    emitted w1 = emitted w ++ [EvOpen] ∧
    connects w1 = connects w ∧
    timers w1 = timers w ∧
    length (sockets w1) = length (sockets w) ∧
    length (scopes w1) = length (scopes w) ∧
    scope_wasConnected k w1 = true ∧
    budget k w1 = budget k w ∧
    (∀ j ev, sockets w1 !! j ≫= handler_slot ev
             = sockets w !! j ≫= handler_slot ev).
Proof.
  intros Hc Hk Hsends.
  destruct (lookup_lt_is_Some_2 _ _ Hk) as [sc Hsc].
  unfold onopen_handler_L, emit_L, emit_with, emit, set_wasConnected.
  js_unfold. rewrite Hc. cbv beta iota.
  set (w0 := record (Emitted EvOpen) _).
  destruct (react_all_sends (close_L L) (L EvOpen) w0 Hsends)
    as (w1 & -> & Ht & Hscs & Htm & _ & He & Hn & Hl & Hslot).
  exists w1. split; [done|]. split; [by rewrite Ht|].
  split; [rewrite He; unfold w0; trace_solve|].
  split; [rewrite Hn; unfold w0; trace_solve|].
  split; [by rewrite Htm|]. split; [by rewrite Hl|].
  split; [rewrite Hscs; unfold w0; simpl; by rewrite length_alter|].
  split. { unfold scope_wasConnected. rewrite Hscs. unfold w0. simpl.
    by rewrite list_lookup_alter_eq, Hsc. }
  split. { unfold budget, scope_timeouts. rewrite Hscs. unfold w0. simpl.
    by rewrite list_lookup_alter_eq, Hsc. }
  intros j ev. by rewrite Hslot.
Qed.

(** The restart when the listeners of [disconnected] only send. *)
Lemma restart_after_sends
    (L : Listeners) (k : nat) (event : CloseEvent) (w : World) :
  closed w = false →
  code event ≠ 4000 →
  scope_wasConnected k w = true →
  sends_only (L EvDisconnected) →
  ∃ w', onclose_handler_L L k event w = (Normal tt, w') ∧
    closed w' = false ∧
    policy w' = policy w ∧
    emitted w' = emitted w ++ [EvDisconnected] ∧
    connects w' = connects w ++ [length (sockets w)] ∧
    timers w' = timers w ∧
    _ws (this w') = Some (length (sockets w)) ∧
    length (sockets w') = S (length (sockets w)) ∧
    length (scopes w') = S (length (scopes w)) ∧
    budget (length (scopes w)) w' = configured_retries w ∧
    scope_wasConnected (length (scopes w)) w' = false ∧
    (∀ ev, sockets w' !! length (sockets w) ≫= handler_slot ev
           = Some (length (scopes w))).
Proof.
  intros Hc Hcode Hwc Hsends.
  rewrite (onclose_restart_L L k event w Hc Hcode Hwc).
  set (announced := record (Emitted EvDisconnected) _).
  assert (Hla : length (scopes announced) = length (scopes w)).
  { unfold announced, operation_stop, set_operation. js_unfold. simpl.
    by rewrite length_alter. }
  destruct (react_all_sends (close_L L) (L EvDisconnected) announced Hsends)
    as (w1 & -> & Ht & Hscs & Htm & _ & He & Hn & Hl & _).
  cbn [fst snd].
  assert (Hc1 : closed w1 = false) by (unfold closed; by rewrite Ht).
  destruct (setWebSocket_open w1 Hc1)
    as (w' & -> & Hthis & Hs & Hsc' & Htm' & _ & Htr).
  assert (Hl1 : length (sockets w1) = length (sockets w)) by by rewrite Hl.
  assert (Hls1 : length (scopes w1) = length (scopes w)) by by rewrite Hscs.
  assert (Hk' : scopes w' !! length (scopes w) = Some (fresh_scope w1)).
  { rewrite Hsc', <- Hls1. apply lookup_snoc. }
  assert (Hpol : policy w1 = policy w) by (unfold policy; by rewrite Ht).
  exists w'. split; [done|].
  split; [by unfold closed; rewrite Hthis|].
  split; [by unfold policy; rewrite Hthis|].
  split. { unfold emitted at 1. rewrite Htr, omap_app. simpl.
    rewrite app_nil_r. fold (emitted w1). rewrite He.
    unfold announced, operation_stop, set_operation. js_unfold. trace_solve. }
  split. { unfold connects at 1. rewrite Htr, omap_app. simpl.
    fold (connects w1). rewrite Hn, Hl1. f_equal.
    unfold announced, operation_stop, set_operation. js_unfold. trace_solve. }
  split; [by rewrite Htm', Htm|]. split; [by rewrite Hthis, Hl1|].
  split; [rewrite Hs, length_app, Hl1; simpl; lia|].
  split; [rewrite Hsc', length_app, Hls1; simpl; lia|].
  split. { unfold budget, scope_timeouts. rewrite Hk'. simpl.
    rewrite retry_timeouts_length. by rewrite Hpol. }
  split; [by unfold scope_wasConnected; rewrite Hk'|].
  intros ev. rewrite Hs, <- Hl1, lookup_snoc. simpl.
  rewrite Hls1. by destruct ev.
Qed.

(** X2: when the listeners of [open] and [disconnected] only send (none
    closes the transport, none throws): once the open callback of a scope
    has run on a transport that is not closed, a close with a code other
    than 4000 in that scope does not close the transport, whatever is left
    of the retry budget: it emits [disconnected] after the [open], starts a
    new scope with the full configured budget and makes a newly
    constructed socket the current one. *)
Theorem open_then_drop_with_listeners
    (L : Listeners) (k : nat) (event : CloseEvent) (w : World) :
  closed w = false →
  (k < length (scopes w))%nat →
  code event ≠ 4000 →
  sends_only (L EvOpen) →
  sends_only (L EvDisconnected) →
  ∃ w1, onopen_handler_L L k w = (Normal tt, w1) ∧
    emitted w1 = emitted w ++ [EvOpen] ∧
    scope_wasConnected k w1 = true ∧
    budget k w1 = budget k w ∧
    ∃ w2, onclose_handler_L L k event w1 = (Normal tt, w2) ∧
      closed w2 = false ∧
      emitted w2 = emitted w ++ [EvOpen; EvDisconnected] ∧
      _ws (this w2) = Some (length (sockets w)) ∧
      length (sockets w2) = S (length (sockets w)) ∧
      budget (length (scopes w)) w2 = configured_retries w ∧
      scope_wasConnected (length (scopes w)) w2 = false.
Proof.
  intros Hc Hk Hcode Hopen Hdisc.
  destruct (open_after_sends L k w Hc Hk Hopen)
    as (w1 & Hf1 & Ht1 & He1 & _ & _ & Hl1 & Hls1 & Hwc1 & Hb1 & _).
  exists w1. split; [done|]. split; [done|]. split; [done|]. split; [done|].
  assert (Hc1 : closed w1 = false) by (unfold closed; by rewrite Ht1).
  destruct (restart_after_sends L k event w1 Hc1 Hcode Hwc1 Hdisc)
    as (w2 & Hf2 & Hc2 & _ & He2 & _ & _ & Hws2 & Hl2 & _ & Hb2 & Hwc2 & _).
  exists w2. split; [done|]. split; [done|].
  split; [by rewrite He2, He1, <- app_assoc|].
  split; [by rewrite Hws2, Hl1|]. split; [by rewrite Hl2, Hl1|].
  split. { rewrite <- Hls1, Hb2. unfold configured_retries, policy.
    by rewrite Ht1. }
  by rewrite <- Hls1.
Qed.

(** *** A connection that keeps dropping *)

(** One round with listeners that only send: the current socket, the only
    one of the newest scope, opens and then reports a close with a code
    other than 4000. *)
Lemma reconnect_round_L
    (L : Listeners) (i : nat) (event : CloseEvent) (w : World) :
  sends_only (L EvOpen) →
  sends_only (L EvDisconnected) →
  closed w = false →
  length (sockets w) = S i →
  length (scopes w) = S i →
  (∀ ev, sockets w !! i ≫= handler_slot ev = Some i) →
  code event ≠ 4000 →
  let w' := run_L L [Deliver i SockOpen; Deliver i (SockClose event)] w in
  closed w' = false ∧
  length (sockets w') = S (S i) ∧
  length (scopes w') = S (S i) ∧
  (∀ ev, sockets w' !! S i ≫= handler_slot ev = Some (S i)) ∧
  emitted w' = emitted w ++ [EvOpen; EvDisconnected] ∧
  connects w' = connects w ++ [S i] ∧
  _ws (this w') = Some (S i) ∧
  budget (S i) w' = configured_retries w ∧
  scope_wasConnected (S i) w' = false ∧
  policy w' = policy w ∧
  timers w' = timers w.
Proof.
  intros Hopen Hdisc Hc Hls Hlsc Hslot Hcode.
  change (run_L L [Deliver i SockOpen; Deliver i (SockClose event)] w)
    with (exec (deliver_L L i (SockClose event))
            (exec (deliver_L L i SockOpen) w)).
  (* the open event *)
  set (wa := with_sockets
               (alter (λ s, set_native (native_event SockOpen (native s)) s) i) w).
  assert (Hlsa : length (sockets wa) = S i).
  { unfold wa. simpl. by rewrite length_alter. }
  destruct (open_after_sends L i wa Hc ltac:(unfold wa; simpl; lia) Hopen)
    as (w1 & Hf1 & Ht1 & He1 & Hn1 & Htm1 & Hl1 & Hls1 & Hwc1 & _ & Hslot1).
  assert (Hopened : exec (deliver_L L i SockOpen) w = w1).
  { unfold exec. rewrite (deliver_L_slot L i i SockOpen w (Hslot _)).
    fold wa. cbn [handler_L]. by rewrite Hf1. }
  rewrite Hopened.
  assert (Hc1 : closed w1 = false) by (unfold closed; by rewrite Ht1).
  assert (Hslot1' : ∀ ev, sockets w1 !! i ≫= handler_slot ev = Some i).
  { intros ev. rewrite Hslot1. unfold wa. simpl.
    by rewrite native_event_slots. }
  (* the close event *)
  set (wb := with_sockets
               (alter (λ s, set_native
                              (native_event (SockClose event) (native s)) s) i)
               w1).
  assert (Hcb : closed wb = false) by done.
  assert (Hwcb : scope_wasConnected i wb = true) by done.
  destruct (restart_after_sends L i event wb Hcb Hcode Hwcb Hdisc)
    as (w2 & Hf2 & Hc2 & Hp2 & He2 & Hn2 & Htm2 & Hws2 & Hl2 & Hls2 & Hb2
        & Hwc2 & Hslot2).
  assert (Hdropped : exec (deliver_L L i (SockClose event)) w1 = w2).
  { unfold exec. rewrite (deliver_L_slot L i i (SockClose event) w1 (Hslot1' _)).
    fold wb. cbn [handler_L]. by rewrite Hf2. }
  rewrite Hdropped.
  assert (Hlsb : length (sockets wb) = S i).
  { unfold wb. simpl. by rewrite length_alter, Hl1. }
  assert (Hlscb : length (scopes wb) = S i).
  { unfold wb. simpl. by rewrite Hls1. }
  rewrite Hlsb in *. rewrite Hlscb in *.
  split; [done|]. split; [done|]. split; [done|]. split; [done|].
  split. { rewrite He2. unfold wb. change (emitted (with_sockets _ w1))
      with (emitted w1). by rewrite He1, <- app_assoc. }
  split. { rewrite Hn2. unfold wb. change (connects (with_sockets _ w1))
      with (connects w1). by rewrite Hn1. }
  split; [done|].
  split. { rewrite Hb2. unfold configured_retries, policy, wb. simpl.
    by rewrite Ht1. }
  split; [done|].
  split. { rewrite Hp2. unfold policy, wb. simpl. by rewrite Ht1. }
  rewrite Htm2. unfold wb. simpl. by rewrite Htm1.
Qed.

Lemma reconnect_rounds_run_L (L : Listeners) (events : list CloseEvent) :
  sends_only (L EvOpen) →
  sends_only (L EvDisconnected) →
  ∀ (i : nat) (w : World),
  closed w = false →
  length (sockets w) = S i →
  length (scopes w) = S i →
  (∀ ev, sockets w !! i ≫= handler_slot ev = Some i) →
  _ws (this w) = Some i →
  budget i w = configured_retries w →
  Forall (λ event, code event ≠ 4000) events →
  let w' := run_L L (reconnect_rounds i events) w in
  closed w' = false ∧
  emitted w' = emitted w ++ flat_map (λ _, [EvOpen; EvDisconnected]) events ∧
  connects w' = connects w ++ seq (S i) (length events) ∧
  _ws (this w') = Some (i + length events)%nat ∧
  budget (i + length events) w' = configured_retries w ∧
  timers w' = timers w.
Proof.
  intros Hopen Hdisc.
  induction events as [|event events IH];
    intros i w Hc Hls Hlsc Hslot Hws Hb Hcodes.
  { cbv zeta. change (run_L L (reconnect_rounds i []) w) with w. cbn [length].
    rewrite !Nat.add_0_r. simpl. rewrite !app_nil_r. done. }
  apply Forall_cons in Hcodes as [Hcode Hcodes].
  destruct (reconnect_round_L L i event w Hopen Hdisc Hc Hls Hlsc Hslot Hcode)
    as (Hc1 & Hls1 & Hlsc1 & Hslot1 & He1 & Hn1 & Hws1 & Hb1 & _ & Hp1 & Htm1).
  set (w1 := run_L L [Deliver i SockOpen; Deliver i (SockClose event)] w) in *.
  assert (Hcr : configured_retries w1 = configured_retries w)
    by (unfold configured_retries; by rewrite Hp1).
  rewrite <- Hcr in Hb1.
  destruct (IH (S i) w1 Hc1 Hls1 Hlsc1 Hslot1 Hws1 Hb1 Hcodes)
    as (Hc' & He' & Hn' & Hws' & Hb' & Htm').
  cbv zeta in *.
  change (run_L L (reconnect_rounds i (event :: events)) w)
    with (run_L L (reconnect_rounds (S i) events) w1).
  cbn [length]. replace (i + S (length events))%nat
    with (S i + length events)%nat by lia.
  split; [done|].
  split. { rewrite He', He1, <- app_assoc. done. }
  split. { rewrite Hn', Hn1, <- app_assoc. done. }
  split; [done|]. split; [by rewrite Hb', Hcr|].
  by rewrite Htm', Htm1.
Qed.

(** X13: when the listeners of [open] and [disconnected] only send (none
    closes the transport, none throws), an established connection that
    drops is restarted without bound.  After a constructor that returned,
    let each current socket open and then report a close with a code other
    than 4000, any number of times: the transport is never closed, it has
    emitted [open] and [disconnected] once per round and no [close], every
    round has constructed one new socket, which is the current one, and the
    operation of the newest scope holds the full configured budget again. *)
Theorem established_connection_keeps_restarting
    (L : Listeners) (url : string) (options : option Options)
    (events : list CloseEvent) :
  fst (constructor_checked url options) = Normal tt →
  sends_only (L EvOpen) →
  sends_only (L EvDisconnected) →
  Forall (λ event, code event ≠ 4000) events →
  let w0 := snd (constructor_checked url options) in
  let w := run_L L (reconnect_rounds 0 events) w0 in
  closed w = false ∧
  emitted w = flat_map (λ _, [EvOpen; EvDisconnected]) events ∧
  connects w = seq 0 (S (length events)) ∧
  _ws (this w) = Some (length events) ∧
  budget (length events) w = configured_retries w0 ∧
  timers w = [].
Proof.
  intros Hret Hopen Hdisc Hcodes w0 w.
  destruct (constructor_world url options)
    as (w0' & Hf & Hthis & Hs & Hsc & Hb & Htm & _ & He & Htr).
  cbv zeta in *.
  assert (Hw0 : w0 = w0').
  { unfold w0. by rewrite (constructor_checked_returned url options Hret), Hf. }
  clear Hf. subst w0'.
  assert (Hc0 : closed w0 = false) by (unfold closed; by rewrite Hthis).
  destruct (reconnect_rounds_run_L L events Hopen Hdisc 0 w0 Hc0)
    as (Hc' & He' & Hn' & Hws' & Hb' & Htm');
    [by rewrite Hs|by rewrite Hsc| |by rewrite Hthis| |done|].
  { intros ev. rewrite Hs. by destruct ev. }
  { rewrite Hb. unfold configured_retries, policy. by rewrite Hthis. }
  fold w in Hc', He', Hn', Hws', Hb', Htm'. cbn [Nat.add] in *.
  split; [done|]. split; [by rewrite He', He|].
  split. { rewrite Hn'. unfold connects. by rewrite Htr. }
  split; [done|]. split; [done|]. by rewrite Htm', Htm.
Qed.

End Properties.

(** ** The theorems at work on the sample runs *)

Lemma callbacks_after_closed_witness :
  closed w_closed = true ∧
  let w' := run [Deliver 1%nat SockError; Fire 0%nat] w_closed in
  onclose_handler 0 abnormal w' = (Normal tt, w') ∧
  onmessage_handler 0 "{}" w' = (Normal tt, w').
Proof.
  split; [reflexivity|].
  pose proof (callbacks_after_closed_are_noops w_closed eq_refl
                [Deliver 1%nat SockError; Fire 0%nat] 0%nat) as Hw.
  cbv zeta in Hw. destruct Hw as (_ & _ & _ & Hclose & _ & Hmsg & _).
  split; [apply Hclose|apply Hmsg].
Defined.


Lemma lost_connection_listeners_witness :
  closed w_connected = false ∧
  code abnormal ≠ 4000 ∧
  scope_wasConnected 0 w_connected = true ∧
  sends_only (chatty EvDisconnected) ∧
  ∃ w', onclose_handler_L chatty 0 abnormal w_connected = (Normal tt, w') ∧
    closed w' = false ∧
    emitted w' = [EvOpen; EvDisconnected] ∧
    budget 1 w' = 10%nat ∧
    _ws (this w') = Some 1%nat.
Proof.
  assert (Hcode : code abnormal ≠ 4000) by (vm_compute; discriminate).
  assert (Hsends : sends_only (chatty EvDisconnected)).
  { constructor; [by eexists|constructor]. }
  split; [reflexivity|]. split; [exact Hcode|]. split; [reflexivity|].
  split; [exact Hsends|].
  pose proof (lost_connection_with_listeners (C:=stub) chatty 0 abnormal
                w_connected eq_refl Hcode eq_refl) as Hw.
  cbv zeta in Hw. destruct Hw as (_ & _ & _ & _ & Hs & Hrestart & _).
  destruct (Hs Hsends) as [Hn Hc].
  destruct (Hrestart Hn Hc)
    as (w' & Hf & Hc' & He & _ & _ & Hb & _ & _ & _ & Hws & _).
  exists w'. split; [exact Hf|]. split; [exact Hc'|].
  split; [exact He|]. split; [exact Hb|]. exact Hws.
Defined.

(** C3 as stated fails: on the connected transport, not closed, a listener
    of [disconnected] that calls [close()] makes the close callback, with
    code 1006, leave the transport closed with a [close] event emitted and
    no new socket: the attempt of the new scope stops at its guard. *)
Lemma listener_close_stops_restart :
  w_connected = run_L gives_up [DoListen; Deliver 0%nat SockOpen] w_fresh ∧
  closed w_connected = false ∧
  code abnormal ≠ 4000 ∧
  scope_wasConnected 0 w_connected = true ∧
  let w' := exec (onclose_handler_L gives_up 0 abnormal) w_connected in
  closed w' = true ∧
  emitted w' = [EvOpen; EvDisconnected; EvClose] ∧
  connects w' = connects w_connected ∧
  _ws (this w') = Some 0%nat ∧
  budget 1 w' = 0%nat.
Proof.
  vm_compute. repeat split. discriminate.
Qed.

Lemma failed_attempts_witness :
  let xs := [Closes abnormal; Expires 0%nat; Closes abnormal] in
  closed w_fresh = false ∧
  scope_wasConnected 0 w_fresh = false ∧
  (length (closes xs) ≤ budget 0 w_fresh)%nat ∧
  closed (phase 0 xs w_fresh) = false ∧
  emitted (phase 0 xs w_fresh) = emitted w_fresh.
Proof.
  intros xs.
  assert (Hcodes : Forall (λ event, code event ≠ 4000) (closes xs)).
  { repeat constructor; simpl; lia. }
  assert (Hfit : (length (closes xs) ≤ budget 0 w_fresh)%nat).
  { vm_compute. lia. }
  split; [reflexivity|]. split; [reflexivity|]. split; [done|].
  destruct (failed_attempts_keep_retrying 0 xs w_fresh eq_refl eq_refl Hcodes Hfit)
    as (Hc & He & _).
  by split.
Defined.

Lemma send_outcomes_witness :
  _ws (this w_connected) = Some 0%nat ∧
  sockets w_connected !! 0%nat = Some s_connected ∧
  fst (send (JsString "hello") w_connected) = Normal Resolved.
Proof.
  split; [reflexivity|]. split; [reflexivity|].
  destruct (send_outcomes (JsString "hello") w_connected 0 s_connected
              eq_refl eq_refl) as (_ & _ & _ & _ & Hsent).
  by rewrite (Hsent eq_refl _ _ eq_refl eq_refl).
Defined.

(** C5 as stated fails: on the connected transport, not closed, a request
    holding a BigInt is rejected although the send of the socket does not
    throw; the socket is never called. *)
Lemma send_fails_on_serialisation :
  ¬ (rejected (fst (send bigint_request w_connected)) ↔
       closed w_connected = true ∨
       ∃ data e, JSON_stringify bigint_request = inr data ∧
                 native_send (native s_connected) data = inl e).
Proof.
  intros [Hfails _].
  destruct Hfails as [Hc|(data & e & Hd & _)].
  - by eexists.
  - discriminate Hc.
  - discriminate Hd.
Qed.

Lemma close_listeners_witness :
  closed w_connected = false ∧
  first_throw (chatty EvClose) = None ∧
  ∃ w', close_L chatty w_connected = (Normal tt, w') ∧
    closed w' = true ∧
    sockets w' !! 0%nat =
      Some (@Build_WebSocket stub {| readyState := CLOSING; outbox := [] |}
              None None None None) ∧
    trace w' = trace w_connected ++
      [Logged LDebug log_close; Emitted EvClose; Logged LDebug log_close;
       Called 0 CallClose].
Proof.
  split; [reflexivity|]. split; [reflexivity|].
  pose proof (close_with_listeners (C:=stub) chatty w_connected eq_refl) as Hw.
  cbv zeta in Hw.
  destruct Hw as (_ & _ & _ & _ & _ & _ & Hheard & _ & _ & Hquiet).
  destruct (Hquiet eq_refl) as (_ & _ & Hsock).
  destruct (Hsock 0%nat s_connected eq_refl eq_refl) as (w' & Hf & Hs & Htr).
  exists w'. split; [exact Hf|].
  split. { assert (Hc : fst (close_L chatty w_connected) = Normal tt) by by rewrite Hf.
    destruct (Hquiet eq_refl) as (_ & (w'' & Hf' & Hc' & _) & _).
    rewrite Hf in Hf'. by injection Hf' as <-. }
  split; [exact Hs|].
  rewrite Htr, Hheard. reflexivity.
Defined.

(** C6 as stated fails: on the connected transport, not closed, a listener
    of [close] that throws makes [close()] throw to its caller; the flag is
    set and the event emitted, but the socket keeps its four callbacks and
    is not asked to close. *)
Lemma listener_throw_skips_teardown :
  w_connected = run_L faulty [DoListen; Deliver 0%nat SockOpen] w_fresh ∧
  closed w_connected = false ∧
  fst (close_L faulty w_connected) = Throw (Error "listener failed") ∧
  let w' := exec (close_L faulty) w_connected in
  closed w' = true ∧
  sockets w' !! 0%nat = Some s_connected ∧
  trace w' = trace w_connected ++ [Logged LDebug log_close; Emitted EvClose].
Proof.
  vm_compute. repeat split.
Qed.

Lemma message_callback_witness :
  closed w_connected = false ∧
  onmessage_handler 0 "not json" w_connected = (Normal tt, w_connected).
Proof.
  split; [reflexivity|].
  destruct (message_callback 0 "not json" w_connected eq_refl) as (Hdrop & _).
  by apply Hdrop.
Defined.


(** ** Scenarios of the specification, run on the test double *)

Example default_backoff_delays :
  retry_timeouts DEFAULT_RETRY_OPTIONS
  = [1000; 2000; 4000; 8000; 8000; 8000; 8000; 8000; 8000; 8000].
Proof. reflexivity. Qed.

(** The socket never opens: after [retries + 1] attempts that all end in a
    close with code 1006 the transport is closed, with one [close] event
    and no [disconnected] event. *)
Example scenario_never_connected :
  let history :=
    flat_map (λ i, [Deliver i (SockClose abnormal); Fire 0%nat]) (seq 0 10)
    ++ [Deliver 10%nat (SockClose abnormal)] in
  let w := run history w_fresh in
  closed w = true ∧ emitted w = [EvClose] ∧
  connects w = seq 0 11 ∧ timers w = [].
Proof. vm_compute. done. Qed.

(** One attempt fewer leaves the transport open and silent. *)
Example scenario_still_retrying :
  let history :=
    flat_map (λ i, [Deliver i (SockClose abnormal); Fire 0%nat]) (seq 0 10) in
  let w := run history w_fresh in
  closed w = false ∧ emitted w = [] ∧ budget 0 w = 0%nat ∧
  _ws (this w) = Some 10%nat.
Proof. vm_compute. done. Qed.

(** An established connection drops with code 1006: one [disconnected],
    a new attempt, and the new socket opens. *)
Example scenario_reconnect :
  let w := run [Deliver 0%nat SockOpen; Deliver 0%nat (SockClose abnormal);
                Deliver 1%nat SockOpen] w_fresh in
  closed w = false ∧
  emitted w = [EvOpen; EvDisconnected; EvOpen] ∧
  _ws (this w) = Some 1%nat ∧ budget 1 w = 10%nat.
Proof. vm_compute. done. Qed.

(** The caller closes an open transport: closed at once, one [close]
    event, the socket asked to close, and nothing more whatever the socket
    reports later. *)
Example scenario_caller_closes :
  let w := run [Deliver 0%nat SockOpen; DoClose;
                Deliver 0%nat (SockClose abnormal); Deliver 0%nat SockError;
                DoClose] w_fresh in
  closed w = true ∧
  emitted w = [EvOpen; EvClose] ∧
  trace w = [Logged LDebug (log_constructor "ws://example.test/peer" None);
             Logged LDebug (log_attempt 1); Called 0 CallNew;
             Emitted EvOpen;
             Logged LDebug log_close; Emitted EvClose; Called 0 CallClose;
             Logged LDebug log_close].
Proof. vm_compute. done. Qed.

(** The reserved code closes the transport even on an established
    connection with the full budget. *)
Example scenario_server_close :
  let w := run [Deliver 0%nat SockOpen;
                Deliver 0%nat (SockClose {| wasClean := true; code := 4000;
                                            reason := "bye" |});
                Fire 0%nat; Deliver 0%nat SockOpen] w_fresh in
  closed w = true ∧ emitted w = [EvOpen; EvClose] ∧ connects w = [0%nat].
Proof. vm_compute. done. Qed.

(** Messages: decoded and heard, decoded and unheard, not decoded. *)
Example scenario_messages :
  let w := run [Deliver 0%nat SockOpen;
                Deliver 0%nat (SockMessage "{}");
                DoListen;
                Deliver 0%nat (SockMessage "{}");
                Deliver 0%nat (SockMessage "garbage")] w_fresh in
  emitted w = [EvOpen; EvMessage (JsObject [("raw", JsString "{}")])] ∧
  omap (λ e, match e with Logged LError m => Some m | _ => None end) (trace w)
  = [log_no_listeners].
Proof. vm_compute. done. Qed.

(** A request with a BigInt is rejected before the socket is called. *)
Example scenario_bigint :
  send bigint_request w_connected
  = (Normal (Rejected (TypeError "Do not know how to serialize a BigInt")),
     record (Logged LError
               (log_send_error (TypeError "Do not know how to serialize a BigInt")))
            w_connected).
Proof. reflexivity. Qed.


Lemma close_defuses_witness :
  timers w_backoff !! 0%nat = Some (0%nat, 1000) ∧
  connects (exec (fire 0) (exec close w_backoff)) = [0%nat] ∧
  budget 0 (exec (fire 0) (exec close w_backoff)) = 0%nat.
Proof.
  split; [reflexivity|].
  pose proof (close_defuses_pending_retry 0 0 1000 w_backoff eq_refl) as Hw.
  cbv zeta in Hw. destruct Hw as (_ & _ & _ & Htr & Hb & _).
  split; [|done]. unfold connects. rewrite Htr. reflexivity.
Defined.


Lemma wasConnected_witness :
  scope_wasConnected 0 w_connected = true ∧
  scope_wasConnected 0
    (run [Deliver 0%nat (SockClose abnormal); Deliver 1%nat SockError; DoClose]
       w_connected) = true.
Proof.
  split; [reflexivity|].
  exact (wasConnected_is_never_reset
           [Deliver 0%nat (SockClose abnormal); Deliver 1%nat SockError; DoClose]
           0 w_connected eq_refl).
Defined.

Lemma budget_witness :
  (0 < length (scopes w_fresh))%nat ∧
  (budget 0 (run [Deliver 0%nat (SockClose abnormal); Fire 0%nat] w_fresh)
   ≤ budget 0 w_fresh)%nat.
Proof.
  assert (Hk : (0 < length (scopes w_fresh))%nat) by (vm_compute; lia).
  split; [done|].
  exact (proj1 (budget_never_grows
                  [Deliver 0%nat (SockClose abnormal); Fire 0%nat]
                  0 w_fresh Hk)).
Defined.


Lemma retry_attempt_witness :
  closed w_backoff = false ∧
  timers w_backoff !! 0%nat = Some (0%nat, 1000) ∧
  (0 < length (scopes w_backoff))%nat ∧
  _ws (this (exec (fire 0) w_backoff)) = Some 1%nat ∧
  scope_attempts 0 (exec (fire 0) w_backoff) = 2%nat.
Proof.
  assert (Hk : (0 < length (scopes w_backoff))%nat) by (vm_compute; lia).
  split; [reflexivity|]. split; [reflexivity|]. split; [done|].
  pose proof (retry_attempt_adds_one_socket 0 0 1000 w_backoff eq_refl eq_refl Hk)
    as Hw.
  cbv zeta in Hw. destruct Hw as (_ & Hws & Ha & _).
  by split.
Defined.

Lemma constructor_checked_witness :
  (∃ w, constructor_checked (C:=stub) "ws://example.test/peer" (Some bad_backoff)
        = (Throw (Error "minTimeout is greater than maxTimeout"), w) ∧
        sockets w = [] ∧ _ws (this w) = None) ∧
  (∃ w, constructor_checked (C:=stub) "example.test/peer" None
        = (Throw (Error "You must specify a full WebSocket URL, including protocol."), w) ∧
        sockets w = [] ∧ _ws (this w) = None) ∧
  (∃ w, constructor_checked (C:=stub) "ws://example.test/peer" (Some two_retries)
        = (Normal tt, w) ∧
        _ws (this w) = Some 0%nat ∧ budget 0 w = 2%nat ∧ emitted w = []).
Proof.
  split; [|split].
  - destruct (constructor_checked_outcomes (C:=stub)
                "ws://example.test/peer" (Some bad_backoff))
      as (_ & _ & Hretry & _).
    destruct (Hretry _ eq_refl) as (w & Hf & Hs & _ & Hws & _).
    by exists w.
  - destruct (constructor_checked_outcomes (C:=stub) "example.test/peer" None)
      as (_ & _ & _ & Hsocket & _).
    destruct (Hsocket eq_refl _ eq_refl) as (w & Hf & Hs & Hws & _).
    by exists w.
  - destruct (constructor_checked_outcomes (C:=stub)
                "ws://example.test/peer" (Some two_retries))
      as (_ & _ & _ & _ & Hok).
    destruct (Hok eq_refl eq_refl)
      as (_ & w & Hf & Ht & _ & _ & Hb & _ & _ & He & _).
    exists w. split; [exact Hf|]. split; [by rewrite Ht|]. by split.
Defined.

Lemma open_then_drop_listeners_witness :
  closed w_fresh = false ∧
  (0 < length (scopes w_fresh))%nat ∧
  code abnormal ≠ 4000 ∧
  sends_only (chatty EvOpen) ∧
  sends_only (chatty EvDisconnected) ∧
  ∃ w1 w2, onopen_handler_L chatty 0 w_fresh = (Normal tt, w1) ∧
    onclose_handler_L chatty 0 abnormal w1 = (Normal tt, w2) ∧
    closed w2 = false ∧
    emitted w2 = [EvOpen; EvDisconnected] ∧
    _ws (this w2) = Some 1%nat ∧
    budget 1 w2 = 10%nat.
Proof.
  assert (Hk : (0 < length (scopes w_fresh))%nat) by (vm_compute; lia).
  assert (Hcode : code abnormal ≠ 4000) by (vm_compute; discriminate).
  assert (Hsends : sends_only [ReSend greeting]).
  { constructor; [by eexists|constructor]. }
  split; [reflexivity|]. split; [exact Hk|]. split; [exact Hcode|].
  split; [exact Hsends|]. split; [exact Hsends|].
  destruct (open_then_drop_with_listeners (C:=stub) chatty 0 abnormal w_fresh
              eq_refl Hk Hcode Hsends Hsends)
    as (w1 & Hf1 & _ & _ & _ & w2 & Hf2 & Hc2 & He2 & Hws2 & _ & Hb2 & _).
  exists w1, w2. split; [exact Hf1|]. split; [exact Hf2|].
  split; [exact Hc2|]. split; [exact He2|]. split; [exact Hws2|]. exact Hb2.
Defined.

Lemma keeps_restarting_witness :
  fst (constructor_checked (C:=stub) "ws://example.test/peer" None) = Normal tt ∧
  sends_only (chatty EvOpen) ∧
  sends_only (chatty EvDisconnected) ∧
  Forall (λ event, code event ≠ 4000) [abnormal; abnormal] ∧
  let w := run_L chatty (reconnect_rounds 0 [abnormal; abnormal])
             (snd (constructor_checked (C:=stub) "ws://example.test/peer" None)) in
  closed w = false ∧
  emitted w = [EvOpen; EvDisconnected; EvOpen; EvDisconnected] ∧
  connects w = [0; 1; 2]%nat ∧
  _ws (this w) = Some 2%nat.
Proof.
  assert (Hret : fst (constructor_checked (C:=stub) "ws://example.test/peer" None)
                 = Normal tt) by (vm_compute; reflexivity).
  assert (Hcode : code abnormal ≠ 4000) by (vm_compute; discriminate).
  assert (Hsends : sends_only [ReSend greeting]).
  { constructor; [by eexists|constructor]. }
  assert (Hcodes : Forall (λ event, code event ≠ 4000) [abnormal; abnormal]).
  { constructor; [exact Hcode|]. constructor; [exact Hcode|constructor]. }
  split; [exact Hret|]. split; [exact Hsends|]. split; [exact Hsends|].
  split; [exact Hcodes|].
  pose proof (established_connection_keeps_restarting (C:=stub) chatty
                "ws://example.test/peer" None [abnormal; abnormal]
                Hret Hsends Hsends Hcodes) as Hw.
  cbv zeta in Hw. destruct Hw as (Hc & He & Hn & Hws & _).
  cbv zeta. split; [exact Hc|]. split; [exact He|]. split; [exact Hn|]. exact Hws.
Defined.
